(** * A shallow embedding of the path engine of [config.go]

    The configuration tree of [config.go] is a Go [interface{}] holding
    nested [map[string]interface{}], [[]interface{}] and scalars.  The
    tree is modelled as the inductive type [value]; a Go map is a stdpp
    [gmap], a slice is a [list].  The in-place mutation that [Config.Set]
    performs through map and slice references is modelled by rebuilding
    every container on the walked path around its rewritten child.  The
    two views agree on a root in which no map or slice sits at two
    positions, as the parsers build it.  [Config.Set] stores a map or
    slice it is given by reference, so a caller that sets one container
    under two paths, or under a path of its own, makes a root with a
    shared node or a cycle; [value] holds no such root, and what is
    proved below is proved of roots without sharing.
    Run-time panics of Go (negative slice index, negative [make] length)
    are an explicit outcome of the model. *)

From Stdlib Require Import ZArith String Ascii List Lia.
From Stdlib Require Import Floats.SpecFloat.
From stdpp Require Import base option list strings gmap.

#[local] Set Warnings "-register-all".
#[local] Open Scope Z_scope.

(** ** Values *)

(** A Go [interface{}] as it occurs in a configuration tree.  [VNil] is
    the nil interface, [VInt] a Go [int] (64 bits), [VFloat] a
    [float64] given by its IEEE 754 decomposition. *)
Inductive value : Type :=
  | VNil
  | VBool (b : bool)
  | VInt (z : Z)
  | VFloat (f : spec_float)
  | VString (s : string)
  | VMap (m : gmap string value)
  | VSeq (l : list value).

Definition is_container (v : value) : bool :=
  match v with
  | VMap _ | VSeq _ => true
  | _ => false
  end.

(** [reflect.DeepEqual] on two tree values: equal dynamic types, scalars
    compared with [==] (so a NaN differs from itself and the two zeros
    agree), maps compared by size and key-wise, slices element-wise.
    Two things of Go have no counterpart in [value] and are left out:
    [DeepEqual] calls one and the same map or slice equal without
    looking inside, and it tells a nil slice or map from an empty one. *)
Fixpoint deep_equal (x y : value) {struct x} : bool :=
  match x, y with
  | VNil, VNil => true
  | VBool a, VBool b => bool_decide (a = b)
  | VInt a, VInt b => bool_decide (a = b)
  | VFloat a, VFloat b => SFeqb a b
  | VString a, VString b => bool_decide (a = b)
  | VMap a, VMap b =>
      bool_decide (size a = size b) &&
      map_fold (fun k v acc =>
                  acc && match b !! k with
                         | Some w => deep_equal v w
                         | None => false
                         end) true a
  | VSeq a, VSeq b =>
      (fix go (a b : list value) : bool :=
         match a, b with
         | [], [] => true
         | v :: a', w :: b' => deep_equal v w && go a' b'
         | _, _ => false
         end) a b
  | _, _ => false
  end.

(** ** Errors and outcomes *)

(** The errors built with [fmt.Errorf], by message; the argument is the
    dotted path the message quotes. *)
Inductive error : Type :=
  | ErrIndexOutOfBounds (at_path : string)   (* "index out of bounds. ..." *)
  | ErrIndexMismatch (at_path : string)      (* "object is array. index missmatch ..." *)
  | ErrInvalidPath (path : string)           (* "Invalid path ..." *)
  | ErrIndexOutOfRange (at_path : string) (len : nat)
                                             (* "Index out of range at ...: list has only ... items" *)
  | ErrInvalidListIndex (at_path : string)   (* "Invalid list index at ..." *)
  | ErrNonexistentKey (at_path : string)     (* "Nonexistent map key at ..." *)
  | ErrInvalidType (at_path : string)        (* "Invalid type at ..." *)
  | ErrNotInt (f : spec_float)               (* "Value can't be converted to int: ..." *)
  | ErrSyntax (s : string)                   (* the error of strconv.ParseInt *)
  | ErrTypeMismatch (expected : string)      (* "Type mismatch: expected ..." *)
  | ErrUnsupportedKey                        (* "Unsupported map key: ..." *)
  | ErrUnsupportedMapValue                   (* "Unsupported map value: ..." *)
  | ErrUnsupportedListItem                   (* "Unsupported list item: ..." *)
  | ErrUnsupportedType.                      (* "Unsupported type: ..." *)

(** What a call does: it returns a value, returns an error, or the Go
    run time aborts it with a panic. *)
Inductive result (A : Type) : Type :=
  | Ok (a : A)
  | Err (e : error)
  | Panic.
Arguments Ok {A} a.
Arguments Err {A} e.
Arguments Panic {A}.

(** ** Strings: [strings.Trim], [strings.Split], [strings.Join] *)

Fixpoint trim_left (c : ascii) (s : string) : string :=
  match s with
  | String a s' => if Ascii.eqb a c then trim_left c s' else s
  | EmptyString => EmptyString
  end.

Fixpoint trim_right (c : ascii) (s : string) : string :=
  match s with
  | String a s' =>
      match trim_right c s' with
      | EmptyString => if Ascii.eqb a c then EmptyString else String a EmptyString
      | t => String a t
      end
  | EmptyString => EmptyString
  end.

(** [strings.Trim(s, cutset)] for a cutset of one character. *)
Definition Trim (s : string) (c : ascii) : string :=
  trim_right c (trim_left c s).

(** [strings.Split(s, ".")]. *)
Fixpoint Split (s : string) : list string :=
  match s with
  | EmptyString => [EmptyString]
  | String a s' =>
      if Ascii.eqb a "." then EmptyString :: Split s'
      else match Split s' with
           | h :: t => String a h :: t
           | [] => [String a EmptyString]
           end
  end.

(** [strings.Join(parts, ".")]. *)
Fixpoint Join (parts : list string) : string :=
  match parts with
  | [] => EmptyString
  | [p] => p
  | p :: rest => (p ++ "." ++ Join rest)%string
  end.

(** ** Integers: Go's [int] and [strconv.Atoi] *)

Definition int_min : Z := - 2 ^ 63.
Definition int_max : Z := 2 ^ 63 - 1.

(** Wrap-around of 64-bit two's complement arithmetic. *)
Definition wrap (z : Z) : Z := (z + 2 ^ 63) mod 2 ^ 64 - 2 ^ 63.

Definition int_add (a b : Z) : Z := wrap (a + b).

Definition digit_of (c : ascii) : option Z :=
  let n := Z.of_N (N_of_ascii c) in
  if (48 <=? n) && (n <=? 57) then Some (n - 48) else None.

Fixpoint parse_digits (acc : Z) (s : string) : option Z :=
  match s with
  | EmptyString => Some acc
  | String c s' =>
      match digit_of c with
      | Some d => parse_digits (10 * acc + d) s'
      | None => None
      end
  end.

(** [strconv.Atoi], which is [strconv.ParseInt(s, 10, 0)]: an optional
    sign, at least one decimal digit, nothing else, and a value that
    fits an [int]; [None] is a non-nil error. *)
Definition Atoi (s : string) : option Z :=
  match s with
  | EmptyString => None
  | String c s' =>
      let '(neg, body) :=
        if Ascii.eqb c "-" then (true, s')
        else if Ascii.eqb c "+" then (false, s')
        else (false, s) in
      match body with
      | EmptyString => None
      | _ =>
          match parse_digits 0 body with
          | Some n =>
              let v := if neg then - n else n in
              if (int_min <=? v) && (v <=? int_max) then Some v else None
          | None => None
          end
      end
  end.

Definition ParseInt (s : string) : option Z := Atoi s.

(** ** Slices *)

(** [make([]interface{}, n)]: a slice of [n] nil interfaces; the run
    time panics when [n] is negative.  It also panics, or the process
    runs out of memory, when [n] is more than it can allocate; that
    limit is left out, so on such a length the model returns where the
    program aborts. *)
Definition make_slice (n : Z) : result (list value) :=
  if n <? 0 then Panic else Ok (replicate (Z.to_nat n) VNil).

(** [copy(t, arr)]: the first [min (len t) (len arr)] elements of [t]
    become those of [arr]. *)
Definition copy_into (t arr : list value) : list value :=
  take (length t) arr ++ drop (length arr) t.

Definition makeArray (len : Z) : result value :=
  match make_slice len with
  | Ok slice => Ok (VSeq slice)
  | Err e => Err e
  | Panic => Panic
  end.

Definition makeMap : value := VMap ∅.

Definition resizeArray (key : string) (obj : value) : result value :=
  match Atoi key with
  | Some index =>
      match obj with
      | VNil =>
          match make_slice (int_add index 1) with
          | Ok t => Ok (VSeq t)
          | Err e => Err e
          | Panic => Panic
          end
      | VSeq arr =>
          if Z.of_nat (length arr) <=? index then
            match make_slice (int_add index 1) with
            | Ok t => Ok (VSeq (copy_into t arr))
            | Err e => Err e
            | Panic => Panic
            end
          else Ok obj
      | _ => Ok obj
      end
  | None => Ok obj
  end.

(** ** [Config.Set] *)

(** The outcome of the loop of [Config.Set] from one iteration on: the
    value the walked reference holds afterwards, with the two report
    maps on a normal return.  On an error the report maps are dropped
    ([nil, nil, err]) but what was written to the tree stays. *)
Inductive walk_result : Type :=
  | WOk (cur : value) (modified added : gmap string value)
  | WErr (cur : value) (e : error)
  | WPanic.

(** Put the rewritten child back into the container it was taken from. *)
Definition rebuild (f : value -> value) (r : walk_result) : walk_result :=
  match r with
  | WOk c modified added => WOk (f c) modified added
  | WErr c e => WErr (f c) e
  | WPanic => WPanic
  end.

(** The loop [for i, key := range keys] of [Config.Set], from the
    iteration that handles [key :: rest] with [*ref = cur]; [done] holds
    the segments before it, so that [Join (done ++ [key])] is
    [strings.Join(keys[:i+1], ".")], and [rest = []] is [i == l-1]. *)
Fixpoint walk (done keys : list string) (val cur : value)
    (modified added : gmap string value) {struct keys} : walk_result :=
  match keys with
  | [] => WOk cur modified added
  | key :: rest =>
      let here := Join (done ++ [key]) in
      match cur with
      | VMap v =>
          match v !! key with
          | Some obj =>
              match rest with
              | [] =>
                  if deep_equal obj val then WOk (VMap v) modified added
                  else WOk (VMap (<[key := val]> v)) (<[here := obj]> modified) added
              | next :: _ =>
                  match resizeArray next obj with
                  | Ok obj' =>
                      rebuild (fun c => VMap (<[key := c]> v))
                        (walk (done ++ [key]) rest val obj' modified added)
                  | Err e => WErr cur e
                  | Panic => WPanic
                  end
              end
          | None =>
              match rest with
              | [] => WOk (VMap (<[key := val]> v)) modified (<[here := val]> added)
              | next :: _ =>
                  let child :=
                    match Atoi next with
                    | Some arrIndex => makeArray (int_add arrIndex 1)
                    | None => Ok makeMap
                    end in
                  match child with
                  | Ok child =>
                      rebuild (fun c => VMap (<[key := c]> v))
                        (walk (done ++ [key]) rest val child modified added)
                  | Err e => WErr cur e
                  | Panic => WPanic
                  end
              end
          end
      | VSeq v =>
          match Atoi key with
          | Some arrIndex =>
              if (-1 <? arrIndex) && (arrIndex <? Z.of_nat (length v)) then
                let n := Z.to_nat arrIndex in
                let old := default VNil (v !! n) in
                match rest with
                | [] =>
                    match old with
                    | VNil => WOk (VSeq (<[n := val]> v)) modified (<[here := old]> added)
                    | _ =>
                        if deep_equal old val then WOk (VSeq v) modified added
                        else WOk (VSeq (<[n := val]> v)) (<[here := old]> modified) added
                    end
                | next :: _ =>
                    match resizeArray next old with
                    | Ok child =>
                        rebuild (fun c => VSeq (<[n := c]> v))
                          (walk (done ++ [key]) rest val child modified added)
                    | Err e => WErr cur e
                    | Panic => WPanic
                    end
                end
              else WErr cur (ErrIndexOutOfBounds here)
          | None => WErr cur (ErrIndexMismatch here)
          end
      | _ => walk (done ++ [key]) rest val cur modified added
      end
  end.

(** What a call of [Config.Set] leaves behind: the new [cfg.Root] and
    what it returns. *)
Inductive set_result : Type :=
  | SetOk (root : value) (modified added : gmap string value)
  | SetErr (root : value) (e : error)
  | SetPanic.

Definition of_walk (r : walk_result) : set_result :=
  match r with
  | WOk c modified added => SetOk c modified added
  | WErr c e => SetErr c e
  | WPanic => SetPanic
  end.

(** The path as [Config.Set] reads it. *)
Definition trim_path (path : string) : string :=
  Trim (Trim path ".") " ".

(** [cfg.Set(path, value)] on a handle whose [Root] is [root]. *)
Definition Config_Set (root : value) (path : string) (val : value) : set_result :=
  let path := trim_path path in
  let root := match root with VNil => VMap ∅ | _ => root end in
  if String.eqb path EmptyString then
    SetOk val ∅ (<[EmptyString := val]> ∅)
  else
    let '(root, modified) :=
      match root with
      | VMap _ | VSeq _ => (root, ∅)
      | _ => (VMap ∅, <[EmptyString := root]> ∅)
      end in
    of_walk (walk [] (Split path) val root modified ∅).

(** ** [Get] *)

(** The first loop of [Get]: an empty first part is dropped, an empty
    part anywhere else makes the path invalid.  (The [range] runs over
    the slice as split, also after [parts] was re-sliced.) *)
Definition normalize_parts (path : string) : result (list string) :=
  match Split path with
  | [] => Ok []
  | first :: others =>
      if existsb (String.eqb EmptyString) others then Err (ErrInvalidPath path)
      else if String.eqb first EmptyString then Ok others
      else Ok (first :: others)
  end.

(** The index expression [c[i]] of Go: out of [0 <= i < len(c)] the run
    time panics. *)
Definition slice_index (c : list value) (i : Z) : result value :=
  if (0 <=? i) && (i <? Z.of_nat (length c)) then
    match c !! Z.to_nat i with
    | Some x => Ok x
    | None => Panic
    end
  else Panic.

(** The second loop of [Get], from the iteration that handles
    [part :: rest] with the current value [cfg]. *)
Fixpoint get_walk (done parts : list string) (cfg : value) {struct parts}
    : result value :=
  match parts with
  | [] => Ok cfg
  | part :: rest =>
      let here := Join (done ++ [part]) in
      match cfg with
      | VSeq c =>
          match ParseInt part with
          | Some i =>
              if i <? Z.of_nat (length c) then
                match slice_index c i with
                | Ok x => get_walk (done ++ [part]) rest x
                | Err e => Err e
                | Panic => Panic
                end
              else Err (ErrIndexOutOfRange here (length c))
          | None => Err (ErrInvalidListIndex here)
          end
      | VMap c =>
          match c !! part with
          | Some x => get_walk (done ++ [part]) rest x
          | None => Err (ErrNonexistentKey here)
          end
      | _ => Err (ErrInvalidType here)
      end
  end.

Definition Get (cfg : value) (path : string) : result value :=
  match normalize_parts path with
  | Ok parts => get_walk [] parts cfg
  | Err e => Err e
  | Panic => Panic
  end.

(** ** [normalizeValue] *)

(** What a decoder hands to [normalizeValue]: the supported shapes and
    [ROther] for a value of any other dynamic type.  A Go map is given
    by its entries in the order the [range] visits them, which the run
    time chooses freely. *)
Inductive raw : Type :=
  | RNil
  | RBool (b : bool)
  | RInt (z : Z)
  | RFloat (f : spec_float)
  | RString (s : string)
  | RMapAny (entries : list (raw * raw))      (* map[interface{}]interface{} *)
  | RMapStr (entries : list (string * raw))   (* map[string]interface{} *)
  | RList (items : list raw)                  (* []interface{} *)
  | ROther.

(** The three [range] loops of [normalizeValue]; [normalize] is the
    recursive call. *)
Section ranges.
Variable normalize : raw -> result value.

Fixpoint range_any (entries : list (raw * raw)) (node : gmap string value)
    : result value :=
  match entries with
  | [] => Ok (VMap node)
  | (k, v) :: entries' =>
      match k with
      | RString key =>
          match normalize v with
          | Ok item => range_any entries' (<[key := item]> node)
          | Err _ => Err ErrUnsupportedMapValue
          | Panic => Panic
          end
      | _ => Err ErrUnsupportedKey
      end
  end.

Fixpoint range_str (entries : list (string * raw)) (node : gmap string value)
    : result value :=
  match entries with
  | [] => Ok (VMap node)
  | (key, v) :: entries' =>
      match normalize v with
      | Ok item => range_str entries' (<[key := item]> node)
      | Err _ => Err ErrUnsupportedMapValue
      | Panic => Panic
      end
  end.

Fixpoint range_list (items : list raw) (key : nat) (node : list value)
    : result value :=
  match items with
  | [] => Ok (VSeq node)
  | v :: items' =>
      match normalize v with
      | Ok item => range_list items' (S key) (<[key := item]> node)
      | Err _ => Err ErrUnsupportedListItem
      | Panic => Panic
      end
  end.
End ranges.

Fixpoint normalizeValue (value_ : raw) : result value :=
  match value_ with
  | RMapAny entries => range_any normalizeValue entries ∅
  | RMapStr entries => range_str normalizeValue entries ∅
  | RList items =>
      range_list normalizeValue items O (replicate (length items) VNil)
  | RBool b => Ok (VBool b)
  | RFloat f => Ok (VFloat f)
  | RInt z => Ok (VInt z)
  | RString s => Ok (VString s)
  | RNil => Ok VNil
  | ROther => Err ErrUnsupportedType
  end.

(** ** Numbers as text: [fmt.Sprint] on [int] and [float64] *)

(** The library functions below are Go's, not the repository's; they are
    written after their documentation.  [fmt.Sprint] prints a [float64]
    with verb [%v], that is [strconv.FormatFloat(f, 'g', -1, 64)]: the
    shortest decimal digit string that reads back as the same float
    (the nearest to the float among the shortest), printed in [%e] form
    when the decimal exponent is below -4 or at least 6 and in [%f]
    form otherwise. *)

Fixpoint digits_fuel (fuel : nat) (n : Z) (acc : list Z) : list Z :=
  match fuel with
  | O => n :: acc
  | S fuel' =>
      if n <? 10 then n :: acc
      else digits_fuel fuel' (n / 10) (n mod 10 :: acc)
  end.

(** The decimal digits of [n >= 0], most significant first. *)
Definition digits_of (n : Z) : list Z :=
  digits_fuel (Z.to_nat (Z.log2 n)) n [].

Definition digit_char (d : Z) : ascii := ascii_of_N (Z.to_N (48 + d)).

Definition digits_string (ds : list Z) : string :=
  fold_right (fun d s => String (digit_char d) s) EmptyString ds.

(** [fmt.Sprint(i)] for an [int]. *)
Definition Sprint_int (i : Z) : string :=
  if i <? 0 then String "-" (digits_string (digits_of (- i)))
  else digits_string (digits_of i).

(** A positive finite float is [m * 2^e].  With [E = e - 2] the float,
    the midpoint to its upper neighbour and the midpoint to its lower
    neighbour are the multiples [4m], [4m + 2] and [4m - 2] of [2^E]
    ([4m - 1] when [m] is the least normal mantissa and the exponent is
    not the least, where the lower neighbour is half as far).  A decimal
    [c * 10^k] is compared with [n * 2^E] after both are scaled to
    integers: [c * den k] against [num n k]. *)
Section shortest.
Variables (m e : Z).

Let E : Z := e - 2.
Definition num (n k : Z) : Z := n * 2 ^ Z.max E 0 * 10 ^ Z.max (- k) 0.
Definition den (k : Z) : Z := 10 ^ Z.max k 0 * 2 ^ Z.max (- E) 0.

Definition mid : Z := 4 * m.
Definition upper : Z := 4 * m + 2.
Definition lower : Z :=
  if (m =? 2 ^ 52) && (-1074 <? e) then 4 * m - 1 else 4 * m - 2.
Definition inclusive : bool := Z.even m.

(** Whether [c * 10^k] reads back as the float. *)
Definition in_range (c k : Z) : bool :=
  if inclusive
  then (num lower k <=? c * den k) && (c * den k <=? num upper k)
  else (num lower k <? c * den k) && (c * den k <? num upper k).

(** The [x] with [10^x <= m * 2^e < 10^(x+1)]. *)
Definition dec_exponent : Z :=
  let x0 := (Z.log2 m + e) * 30103 / 100000 in
  let le x := den x <=? num mid x in
  if le (x0 + 1) then x0 + 1
  else if le x0 then x0
  else if le (x0 - 1) then x0 - 1
  else x0 - 2.

(** The digits [c] and the exponent [k] of the shortest decimal
    [c * 10^k] that reads back as the float, trying 1, 2, ... digits. *)
Fixpoint shortest_from (fuel : nat) (nd : Z) : Z * Z :=
  let k := dec_exponent + 1 - nd in
  let q := num mid k / den k in
  let r := num mid k mod den k in
  match fuel with
  | O => (q, k)
  | S fuel' =>
      if r =? 0 then (q, k)
      else
        let okdown := in_range q k in
        let okup := in_range (q + 1) k in
        if okdown && okup then
          if 2 * r <? den k then (q, k)
          else if den k <? 2 * r then (q + 1, k)
          else if Z.even q then (q, k) else (q + 1, k)
        else if okdown then (q, k)
        else if okup then (q + 1, k)
        else shortest_from fuel' (nd + 1)
  end.
End shortest.

Fixpoint strip_zeros (fuel : nat) (c k : Z) : Z * Z :=
  match fuel with
  | O => (c, k)
  | S fuel' =>
      if (c mod 10 =? 0) && (0 <? c) then strip_zeros fuel' (c / 10) (k + 1)
      else (c, k)
  end.

(** The digit, as a character, at position [i] of [ds], ['0'] outside. *)
Definition digit_at (ds : list Z) (i : Z) : ascii :=
  if i <? 0 then "0"%char
  else digit_char (default 0 (ds !! Z.to_nat i)).

Definition digits_range (ds : list Z) (from count : Z) : string :=
  digits_string
    (map (fun i => default 0 (if (from + Z.of_nat i) <? 0 then None
                              else ds !! Z.to_nat (from + Z.of_nat i)))
         (seq 0 (Z.to_nat count))).

(** [%e]: [d.ddde+xx], the exponent with at least two digits. *)
Definition fmtE (ds : list Z) (dp : Z) : string :=
  let x := dp - 1 in
  let frac := digits_range ds 1 (Z.of_nat (length ds) - 1) in
  let xs := digits_string (digits_of (Z.abs x)) in
  (String (digit_at ds 0) (if String.eqb frac EmptyString then EmptyString else String "." frac)
   ++ String "e" (String (if Z.ltb x 0 then "-"%char else "+"%char)
                    (if Z.ltb (Z.abs x) 10 then String "0" xs else xs)))%string.

(** [%f] with as many decimals as the digits need. *)
Definition fmtF (ds : list Z) (dp : Z) : string :=
  let prec := Z.max (Z.of_nat (length ds) - dp) 0 in
  ((if Z.ltb 0 dp then digits_range ds 0 dp else "0")
   ++ (if Z.ltb 0 prec then String "." (digits_range ds dp prec) else EmptyString))%string.

(** [fmt.Sprint(f)] for a [float64]. *)
Definition Sprint_float (f : spec_float) : string :=
  match f with
  | S754_nan => "NaN"
  | S754_infinity false => "+Inf"
  | S754_infinity true => "-Inf"
  | S754_zero false => "0"
  | S754_zero true => "-0"
  | S754_finite s m e =>
      let '(c, k) := shortest_from (Z.pos m) e 17 1 in
      let '(c, k) := strip_zeros 20 c k in
      let ds := digits_of c in
      let dp := Z.of_nat (length ds) + k in
      let x := dp - 1 in
      let body := if (x <? -4) || (6 <=? x) then fmtE ds dp else fmtF ds dp in
      if s then String "-" body else body
  end.

(** The conversion [int(n)] of a [float64]: the fraction is dropped; for
    a NaN, an infinity or a value no [int] holds the result is left to
    the implementation, and is the least [int] on amd64. *)
Definition float_to_int (f : spec_float) : Z :=
  match f with
  | S754_zero _ => 0
  | S754_finite s m e =>
      let a := if 0 <=? e then Z.pos m * 2 ^ e else Z.pos m / 2 ^ (- e) in
      let v := if s then - a else a in
      if (int_min <=? v) && (v <=? int_max) then v else int_min
  | _ => int_min
  end.

(** The [float64] nearest to [m * 2^e]. *)
Definition float64 (m e : Z) : spec_float := binary_normalize 53 1024 m e false.

(** ** The typed accessor [Config.Int] *)

(** [cfg.Int(path)] on a handle whose [Root] is [root]. *)
Definition Config_Int (root : value) (path : string) : result Z :=
  match Get root path with
  | Ok n =>
      match n with
      | VFloat n =>
          let i := float_to_int n in
          if String.eqb (Sprint_int i) (Sprint_float n) then Ok i
          else Err (ErrNotInt n)
      | VInt n => Ok n
      | VString n =>
          match ParseInt n with
          | Some v => Ok v
          | None => Err (ErrSyntax n)
          end
      | _ => Err (ErrTypeMismatch "float64, int or string")
      end
  | Err e => Err e
  | Panic => Panic
  end.

(** ** Observing the loop of [Config.Set] *)

(** The root the loop starts from, after the prologue of [Config.Set]
    on a path that is not empty. *)
Definition start_root (root : value) : value :=
  match root with
  | VMap _ | VSeq _ => root
  | _ => VMap ∅
  end.

(** The [modified] map the loop starts with. *)
Definition start_modified (root : value) : gmap string value :=
  match root with
  | VNil | VMap _ | VSeq _ => ∅
  | _ => <[EmptyString := root]> ∅
  end.

(** The child a mapping gets under a missing key, by the segment that
    follows. *)
Definition fresh_child (next : string) : result value :=
  match Atoi next with
  | Some arrIndex => makeArray (int_add arrIndex 1)
  | None => Ok makeMap
  end.

(** The value of [*ref] when iteration [n] of the loop starts, for the
    loop run on [keys] from [*ref = cur]; [None] when the loop has
    returned or panicked before that iteration. *)
Fixpoint ref_at (n : nat) (keys : list string) (cur : value) {struct n}
    : option value :=
  match n, keys with
  | _, [] => None
  | O, _ :: _ => Some cur
  | S n', key :: rest =>
      match cur with
      | VMap v =>
          match rest with
          | [] => None
          | next :: _ =>
              match v !! key with
              | Some obj =>
                  match resizeArray next obj with
                  | Ok obj' => ref_at n' rest obj'
                  | _ => None
                  end
              | None =>
                  match fresh_child next with
                  | Ok child => ref_at n' rest child
                  | _ => None
                  end
              end
          end
      | VSeq v =>
          match Atoi key, rest with
          | Some arrIndex, next :: _ =>
              if (-1 <? arrIndex) && (arrIndex <? Z.of_nat (length v)) then
                match resizeArray next (default VNil (v !! Z.to_nat arrIndex)) with
                | Ok child => ref_at n' rest child
                | _ => None
                end
              else None
          | _, _ => None
          end
      | _ => ref_at n' rest cur
      end
  end.

(** ** Positions in a tree *)

(** One step down a tree: into a mapping by key, into a sequence by
    index. *)
Inductive seg : Type :=
  | Key (k : string)
  | Idx (i : nat).

(** The value at a position, if the tree reaches that far. *)
Fixpoint at_addr (q : list seg) (t : value) {struct q} : option value :=
  match q with
  | [] => Some t
  | s :: q' =>
      match s, t with
      | Key k, VMap v =>
          match v !! k with
          | Some x => at_addr q' x
          | None => None
          end
      | Idx i, VSeq l =>
          match l !! i with
          | Some x => at_addr q' x
          | None => None
          end
      | _, _ => None
      end
  end.



(** The root a call of [Config.Set] leaves when it returns. *)
Definition root_after (r : set_result) : option value :=
  match r with
  | SetOk root _ _ | SetErr root _ => Some root
  | SetPanic => None
  end.

Definition tree_of (r : walk_result) : option value :=
  match r with
  | WOk c _ _ | WErr c _ => Some c
  | WPanic => None
  end.


(** ** Notions used in the statements *)

(** The loop leaves a mapping a mapping, a sequence a sequence of the
    same length, and anything else as it is. *)
Definition same_shape (cur cur' : value) : Prop :=
  match cur with
  | VMap _ => exists v', cur' = VMap v'
  | VSeq l => exists l', cur' = VSeq l' /\ length l' = length l
  | _ => cur' = cur
  end.

(** A key that asserts to [string]. *)
Definition string_key (k : raw) : bool :=
  match k with
  | RString _ => true
  | _ => false
  end.

(** An entry whose value [normalizeValue] accepts. *)
Definition normalizes (kv : raw * raw) : Prop :=
  exists item, normalizeValue kv.2 = Ok item.

(** ** Sample data *)

(** The floats 42.5 and 42.0. *)
Definition float_42_5 : spec_float := float64 85 (-1).
Definition float_42 : spec_float := float64 42 0.

Definition numbers : value :=
  VMap {["s" := VString "42"; "x" := VFloat float_42_5; "y" := VFloat float_42]}.

Definition raw_doc : list (raw * raw) :=
  [(RString "a", RList [RFloat float_42; RNil]); (RString "b", RBool true)].

Definition lists : value :=
  VMap {["list" := VSeq [VInt 1; VSeq [VInt 2; VInt 3]]; "x" := VSeq [VNil]]}.

(** ** The other accessors *)

(** [cfg.Get(path)]: the [Root] of the handle it returns. *)
Definition Config_Get (root : value) (path : string) : result value :=
  match Get root path with
  | Ok n => Ok n
  | Err e => Err e
  | Panic => Panic
  end.

(** [strconv.ParseBool]: twelve literals, anything else is an error. *)
Definition ParseBool (str : string) : option bool :=
  if existsb (String.eqb str) ["1"; "t"; "T"; "TRUE"; "true"; "True"]
  then Some true
  else if existsb (String.eqb str) ["0"; "f"; "F"; "FALSE"; "false"; "False"]
  then Some false
  else None.

(** [fmt.Sprint(b)] for a [bool]. *)
Definition Sprint_bool (b : bool) : string :=
  if b then "true" else "false".

(** [cfg.Bool(path)]. *)
Definition Config_Bool (root : value) (path : string) : result bool :=
  match Get root path with
  | Ok n =>
      match n with
      | VBool n => Ok n
      | VString n =>
          match ParseBool n with
          | Some b => Ok b
          | None => Err (ErrSyntax n)
          end
      | _ => Err (ErrTypeMismatch "bool or string")
      end
  | Err e => Err e
  | Panic => Panic
  end.

(** [cfg.String(path)]. *)
Definition Config_String (root : value) (path : string) : result string :=
  match Get root path with
  | Ok n =>
      match n with
      | VBool n => Ok (Sprint_bool n)
      | VFloat n => Ok (Sprint_float n)
      | VInt n => Ok (Sprint_int n)
      | VString n => Ok n
      | _ => Err (ErrTypeMismatch "bool, float64, int or string")
      end
  | Err e => Err e
  | Panic => Panic
  end.


(** [cfg.Map(path)]. *)
Definition Config_Map (root : value) (path : string)
    : result (gmap string value) :=
  match Get root path with
  | Ok n =>
      match n with
      | VMap value_ => Ok value_
      | _ => Err (ErrTypeMismatch "map[string]interface{}")
      end
  | Err e => Err e
  | Panic => Panic
  end.

(** A path none of whose segments is empty. *)
Definition clean (path : string) : Prop :=
  Forall (fun part => part <> EmptyString) (Split path).

(** [p] and [q] joined by a dot. *)
Definition dot (p q : string) : string :=
  String.append p (String "." q).

(** ** Notions used in the further properties *)

(** The positions the loop of [Config.Set] steps through, as far as the
    tree before the call reaches. *)
Fixpoint route (keys : list string) (cur : value) {struct keys} : list seg :=
  match keys with
  | [] => []
  | key :: rest =>
      match cur with
      | VMap v =>
          Key key :: match v !! key with
                     | Some obj => route rest obj
                     | None => []
                     end
      | VSeq v =>
          match Atoi key with
          | Some arrIndex =>
              if 0 <=? arrIndex then
                Idx (Z.to_nat arrIndex) ::
                  match v !! Z.to_nat arrIndex with
                  | Some c => route rest c
                  | None => []
                  end
              else []
          | None => []
          end
      | _ => []
      end
  end.

(** Position [q] leaves the route [r]: after a common start they take
    different steps. *)
Fixpoint diverges (q r : list seg) {struct q} : Prop :=
  match q, r with
  | s :: q', s' :: r' => s <> s' \/ (s = s' /\ diverges q' r')
  | _, _ => False
  end.

(** A decimal digit. *)
Definition is_digit (d : Z) : Prop := 0 <= d <= 9.

(** A tree as a decoder would hand it over: mappings with string keys,
    lists and scalars ([json.Unmarshal] produces this shape). *)
Fixpoint to_raw (v : value) : raw :=
  match v with
  | VNil => RNil
  | VBool b => RBool b
  | VInt z => RInt z
  | VFloat f => RFloat f
  | VString s => RString s
  | VMap m => RMapStr (map_fold (fun k x acc => (k, to_raw x) :: acc) [] m)
  | VSeq l => RList (map to_raw l)
  end.

(** The number of nodes of a tree. *)
Fixpoint vsize (v : value) : nat :=
  match v with
  | VMap m => S (map_fold (fun _ x acc => vsize x + acc)%nat O m)
  | VSeq l => S (foldr (fun x acc => vsize x + acc)%nat O l)
  | _ => 1%nat
  end.

(** The error [Config.Set] returns at segment [key] on the sequence
    [l] the loop stands on; [here] is the path up to [key]. *)
Definition set_failure (l : list value) (key here : string) (e : error) : Prop :=
  match Atoi key with
  | Some arrIndex =>
      (arrIndex < 0 \/ Z.of_nat (length l) <= arrIndex) /\
      e = ErrIndexOutOfBounds here
  | None => e = ErrIndexMismatch here
  end.

(** The error [Get] returns at segment [part] on the value [c] that
    the segments before it led to; [here] is the path up to [part]. *)
Definition get_failure (c : value) (part here : string) (e : error) : Prop :=
  match c with
  | VSeq l =>
      (exists i, Atoi part = Some i /\ Z.of_nat (length l) <= i /\
                 e = ErrIndexOutOfRange here (length l)) \/
      (Atoi part = None /\ e = ErrInvalidListIndex here)
  | VMap m => m !! part = None /\ e = ErrNonexistentKey here
  | _ => e = ErrInvalidType here
  end.

(** A value with nothing in it yet: nil, the empty mapping, or a
    sequence of nils, as [makeMap], [makeArray] and [resizeArray] on nil
    produce them. *)
Definition fresh (cur : value) : Prop :=
  cur = VNil \/ cur = VMap ∅ \/ exists n, cur = VSeq (replicate n VNil).

(** * Properties *)

(** ** Strings *)

Lemma Split_nonempty (s : string) : Split s <> [].
Proof.
  destruct s as [|a s]; simpl; [done|].
  destruct (Ascii.eqb a "."); [done|].
  by destruct (Split s).
Qed.

Lemma Join_cons (p q : string) (rest : list string) :
  Join (p :: q :: rest) = (p ++ "." ++ Join (q :: rest))%string.
Proof. reflexivity. Qed.

Lemma Join_Split (s : string) : Join (Split s) = s.
Proof.
  induction s as [|a s IH]; [done|].
  cbn [Split]. destruct (Ascii.eqb_spec a ".") as [->|Hne].
  - destruct (Split s) as [|q rest] eqn:E; [by apply Split_nonempty in E|].
    rewrite Join_cons, IH. reflexivity.
  - destruct (Split s) as [|q rest] eqn:E; [by apply Split_nonempty in E|].
    destruct rest as [|q' rest].
    + simpl in *. by rewrite IH.
    + rewrite Join_cons. rewrite Join_cons in IH. rewrite <- IH. reflexivity.
Qed.

(** ** Evaluations of [Config.Set] and [Get] *)

(** C1.  At the empty mapping, [Set] with path [a.b.2.c] and value
    ["x"] creates [a] as a mapping and [b] under it as a sequence of
    three nil elements, and then stops: element 2 is a nil slot and the
    segment after it is not a number, so [resizeArray] leaves the nil,
    no case of the type switch matches it, and the loop runs out.
    Element 2 stays nil, ["x"] is stored nowhere and both report maps
    are empty. *)
Theorem Set_vivify_stops_at_nil_slot :
  Config_Set (VMap ∅) "a.b.2.c" (VString "x") =
  SetOk (VMap {["a" := VMap {["b" := VSeq [VNil; VNil; VNil]]}]}) ∅ ∅.
Proof. vm_compute. reflexivity. Qed.

(** C4.  A negative index is not always turned into an error.  [Get]
    checks only [i < len(c)] before it indexes the slice, so [-1]
    reaches [c[-1]], which panics.  [Set] on a mapping passes the
    following segment to [makeArray] or [resizeArray], where [-2] asks
    [make] for a slice of length [-1], which panics.  Only the segment
    that [Set] itself applies to a sequence is checked on both sides. *)
Theorem negative_index_outcomes :
  Get (VSeq [VInt 1; VInt 2; VInt 3]) "-1" = Panic /\
  Config_Set (VMap ∅) "a.-2.b" (VInt 1) = SetPanic /\
  Config_Set (VMap {["a" := VNil]}) "a.-2" (VInt 1) = SetPanic /\
  Config_Set (VSeq [VInt 1; VInt 2; VInt 3]) "-1" (VInt 1) =
    SetErr (VSeq [VInt 1; VInt 2; VInt 3]) (ErrIndexOutOfBounds "-1").
Proof. repeat split; vm_compute; reflexivity. Qed.

(** ** The empty path *)

Lemma Config_Set_empty (root : value) (path : string) (val : value) :
  trim_path path = EmptyString ->
  Config_Set root path val = SetOk val ∅ (<[EmptyString := val]> ∅).
Proof. intros Hp. unfold Config_Set. rewrite Hp. reflexivity. Qed.

(** C7.  With a path that is empty after trimming, [Set] replaces the
    root by the value, reports the value under the empty key of
    [added], and reports nothing in [modified], whatever the root was. *)
Theorem Set_empty_path (root : value) (path : string) (val : value) :
  trim_path path = EmptyString ->
  Config_Set root path val = SetOk val ∅ (<[EmptyString := val]> ∅).
Proof. apply Config_Set_empty. Qed.

Lemma Set_empty_path_witness :
  trim_path ".. " = EmptyString /\
  Config_Set (VSeq [VInt 1]) ".. " (VString "x") =
    SetOk (VString "x") ∅ (<[EmptyString := VString "x"]> ∅).
Proof.
  split; [reflexivity|].
  apply (Set_empty_path (VSeq [VInt 1]) ".. " (VString "x")). reflexivity.
Defined.

(** ** The accessor [Int] *)

(** C9.  Where [Get] finds the string ["42"], [Int] returns 42; where
    it finds the float 42.5, [Int] returns the conversion error; where
    it finds the float 42.0, [Int] returns 42.  In general a float is
    accepted exactly when the text of its conversion to [int] is the
    text of the float. *)
Theorem Int_coercion (root : value) (path : string) (n : value)
    (Hget : Get root path = Ok n) :
  (n = VString "42" -> Config_Int root path = Ok 42) /\
  (n = VFloat float_42_5 -> Config_Int root path = Err (ErrNotInt float_42_5)) /\
  (n = VFloat float_42 -> Config_Int root path = Ok 42) /\
  (forall f, n = VFloat f ->
     (Sprint_int (float_to_int f) = Sprint_float f ->
      Config_Int root path = Ok (float_to_int f)) /\
     (Sprint_int (float_to_int f) <> Sprint_float f ->
      Config_Int root path = Err (ErrNotInt f))).
Proof.
  unfold Config_Int. rewrite Hget.
  repeat split; try (intros ->; vm_compute; reflexivity).
  - intros Heq. subst n. apply String.eqb_eq in Heq. by rewrite Heq.
  - intros Hne. subst n. apply String.eqb_neq in Hne. by rewrite Hne.
Qed.

Lemma Int_coercion_witness :
  Config_Int numbers "s" = Ok 42 /\
  Config_Int numbers "x" = Err (ErrNotInt float_42_5) /\
  Config_Int numbers "y" = Ok 42.
Proof.
  split; [|split].
  - exact (proj1 (Int_coercion numbers "s" (VString "42") eq_refl) eq_refl).
  - exact (proj1 (proj2 (Int_coercion numbers "x" (VFloat float_42_5) eq_refl))
             eq_refl).
  - exact (proj1 (proj2 (proj2 (Int_coercion numbers "y" (VFloat float_42) eq_refl)))
             eq_refl).
Defined.

(** ** The normalizer *)

Lemma normalizeValue_no_panic : forall r : raw, normalizeValue r <> Panic.
Proof.
  fix IH 1. intros [ | b | z | f | s | entries | entries | items | ]; simpl; try done.
  - generalize (∅ : gmap string value).
    induction entries as [|[k v] entries IHe]; intros node; simpl; [done|].
    destruct k; try done.
    pose proof (IH v) as Hv. destruct (normalizeValue v); [apply IHe|done|done].
  - generalize (∅ : gmap string value).
    induction entries as [|[k v] entries IHe]; intros node; simpl; [done|].
    pose proof (IH v) as Hv. destruct (normalizeValue v); [apply IHe|done|done].
  - generalize (replicate (length items) VNil). generalize O.
    induction items as [|v items IHi]; intros key node; simpl; [done|].
    pose proof (IH v) as Hv. destruct (normalizeValue v); [apply IHi|done|done].
Qed.

Lemma range_any_bad (entries : list (raw * raw)) (node : gmap string value) :
  Exists (fun kv => string_key kv.1 = false \/ ~ normalizes kv) entries ->
  exists e, range_any normalizeValue entries node = Err e.
Proof.
  revert node. induction entries as [|[k v] entries IH]; intros node Hex.
  - by apply Exists_nil in Hex.
  - simpl. destruct k; try by eexists.
    pose proof (normalizeValue_no_panic v) as Hnp.
    destruct (normalizeValue v) as [item| |] eqn:Hv; [|by eexists|done].
    apply IH. apply Exists_cons in Hex as [[Hk|Hn]|Hex]; [done| |done].
    exfalso. apply Hn. by exists item.
Qed.

Lemma range_any_good (entries : list (raw * raw)) (node : gmap string value) :
  Forall (fun kv => string_key kv.1 = true /\ normalizes kv) entries ->
  exists m, range_any normalizeValue entries node = Ok (VMap m) /\
    (forall key, RString key ∉ entries.*1 -> m !! key = node !! key) /\
    (forall key item, m !! key = Some item ->
       node !! key = Some item \/
       exists v, (RString key, v) ∈ entries /\ normalizeValue v = Ok item) /\
    (NoDup entries.*1 ->
     forall key v item, (RString key, v) ∈ entries ->
       normalizeValue v = Ok item -> m !! key = Some item).
Proof.
  revert node. induction entries as [|[k v] entries IH]; intros node Hall.
  - exists node. repeat split; auto. intros _ key v item Hin. by apply elem_of_nil in Hin.
  - apply Forall_cons in Hall as [[Hk [item Hv]] Hall]. simpl in Hk, Hv.
    destruct k as [| | | |key0| | | |]; try done.
    destruct (IH (<[key0 := item]> node) Hall) as (m & Hrun & Hkeep & Hfrom & Hto).
    exists m. simpl. rewrite Hv. split; [done|]. split; [|split].
    + intros key Hnot. rewrite ?fmap_cons in Hnot. apply not_elem_of_cons in Hnot.
      destruct Hnot as [Hne Hnot]. rewrite (Hkeep key Hnot).
      apply lookup_insert_ne. congruence.
    + intros key it Hm. destruct (Hfrom key it Hm) as [Hnode|(w & Hin & Hw)].
      * destruct (decide (key0 = key)) as [->|Hne].
        -- rewrite lookup_insert_eq in Hnode. injection Hnode as <-.
           right. exists v. split; [left|done].
        -- rewrite lookup_insert_ne in Hnode by done. by left.
      * right. exists w. split; [by right|done].
    + intros Hnd key w it Hin Hw. rewrite ?fmap_cons in Hnd.
      apply NoDup_cons in Hnd as [Hfresh Hnd].
      apply elem_of_cons in Hin as [Heq|Hin].
      * injection Heq as -> ->. rewrite (Hkeep key0 Hfresh), lookup_insert_eq.
        congruence.
      * by apply (Hto Hnd key w it).
Qed.

(** C10, as the code has it.  On a mapping with keys of any type the
    normalizer returns an error when some key is not a string, and also
    when all keys are strings but some value does not normalize; when
    all keys are strings and all values normalize it returns a mapping
    that binds each key to the normalized value of its entry and binds
    nothing else.  Booleans, floats, integers, strings and nil are
    returned as they are. *)
Theorem normalize_mapping (entries : list (raw * raw)) :
  (Exists (fun kv => string_key kv.1 = false) entries ->
   exists e, normalizeValue (RMapAny entries) = Err e) /\
  (Exists (fun kv => ~ normalizes kv) entries ->
   exists e, normalizeValue (RMapAny entries) = Err e) /\
  (Forall (fun kv => string_key kv.1 = true) entries ->
   Forall normalizes entries ->
   NoDup entries.*1 ->
   exists m, normalizeValue (RMapAny entries) = Ok (VMap m) /\
     forall key item,
       m !! key = Some item <->
       exists v, (RString key, v) ∈ entries /\ normalizeValue v = Ok item) /\
  (forall b, normalizeValue (RBool b) = Ok (VBool b)) /\
  (forall f, normalizeValue (RFloat f) = Ok (VFloat f)) /\
  (forall z, normalizeValue (RInt z) = Ok (VInt z)) /\
  (forall s, normalizeValue (RString s) = Ok (VString s)) /\
  normalizeValue RNil = Ok VNil.
Proof.
  split; [|split; [|split]]; [| | |by repeat split].
  - intros Hex. apply range_any_bad.
    eapply Exists_impl; [exact Hex|]. intros kv Hk. by left.
  - intros Hex. apply range_any_bad.
    eapply Exists_impl; [exact Hex|]. intros kv Hk. by right.
  - intros Hkeys Hvals Hnd.
    destruct (range_any_good entries ∅) as (m & Hrun & _ & Hfrom & Hto).
    { apply Forall_forall. intros kv Hin. split.
      - by eapply (proj1 (Forall_forall _ _) Hkeys).
      - by eapply (proj1 (Forall_forall _ _) Hvals). }
    exists m. split; [exact Hrun|]. intros key item. split.
    + intros Hm. destruct (Hfrom key item Hm) as [Hempty|Hin]; [|done].
      by rewrite lookup_empty in Hempty.
    + intros (v & Hin & Hv). by apply (Hto Hnd key v item).
Qed.

Lemma normalize_mapping_witness :
  exists m, normalizeValue (RMapAny raw_doc) = Ok (VMap m) /\
    forall key item,
      m !! key = Some item <->
      exists v, (RString key, v) ∈ raw_doc /\ normalizeValue v = Ok item.
Proof.
  apply (proj1 (proj2 (proj2 (normalize_mapping raw_doc)))).
  - repeat constructor.
  - repeat constructor; eexists; reflexivity.
  - vm_compute. repeat constructor; rewrite ?elem_of_cons, ?elem_of_nil; intuition discriminate.
Defined.

(** C10, as stated, fails where all keys are strings and a value has an
    unsupported type: no mapping is returned. *)
Lemma normalize_mapping_counterexample :
  Forall (fun kv : raw * raw => string_key kv.1 = true) [(RString "a", ROther)] /\
  ~ exists m, normalizeValue (RMapAny [(RString "a", ROther)]) = Ok (VMap m).
Proof.
  split; [by repeat constructor|]. intros [m Hm]. vm_compute in Hm. discriminate.
Qed.

(** ** The loop of [Config.Set] *)

Lemma rebuild_ok (f : value -> value) (r : walk_result) c modified added :
  rebuild f r = WOk c modified added ->
  exists c', r = WOk c' modified added /\ c = f c'.
Proof. destruct r; simpl; intros H; try done. injection H as <- <- <-. eauto. Qed.

Lemma app_cons_assoc {A} (done : list A) (key : A) (rest : list A) :
  (done ++ [key]) ++ rest = done ++ key :: rest.
Proof. by rewrite <- app_assoc. Qed.

(** The loop writes to the report maps only under the full path. *)
Lemma walk_reports done keys val cur modified added c modified' added' :
  walk done keys val cur modified added = WOk c modified' added' ->
  forall k, k <> Join (done ++ keys) ->
    modified' !! k = modified !! k /\ added' !! k = added !! k.
Proof.
  revert done cur c. induction keys as [|key rest IH]; intros done cur c Hw k Hk.
  { simpl in Hw. by injection Hw as <- <- <-. }
  assert (Hrec : forall cur' f,
    rebuild f (walk (done ++ [key]) rest val cur' modified added)
      = WOk c modified' added' ->
    modified' !! k = modified !! k /\ added' !! k = added !! k).
  { intros cur' f Hr. apply rebuild_ok in Hr as (c' & Hr & _).
    eapply IH; [exact Hr|]. by rewrite app_cons_assoc. }
  assert (Hskip :
    walk (done ++ [key]) rest val cur modified added = WOk c modified' added' ->
    modified' !! k = modified !! k /\ added' !! k = added !! k).
  { intros Hr. eapply IH; [exact Hr|]. by rewrite app_cons_assoc. }
  simpl in Hw. destruct cur as [| | | | |v|v]; try (by apply Hskip).
  - destruct (v !! key) as [obj|].
    + destruct rest as [|next rest'].
      * destruct (deep_equal obj val); injection Hw as <- <- <-; [done|].
        by rewrite lookup_insert_ne.
      * destruct (resizeArray next obj); try done. by eapply Hrec.
    + destruct rest as [|next rest'].
      * injection Hw as <- <- <-. by rewrite lookup_insert_ne.
      * destruct (match Atoi next with Some _ => _ | None => _ end); try done.
        by eapply Hrec.
  - destruct (Atoi key) as [arrIndex|]; [|done].
    destruct (_ && _); [|done].
    destruct rest as [|next rest'].
    + destruct (default VNil _); [| destruct (deep_equal _ val) ..];
        injection Hw as <- <- <-; rewrite ?lookup_insert_ne; done.
    + destruct (resizeArray next _); try done. by eapply Hrec.
Qed.

(** ** The root reset *)

(** C5, as the code has it.  With a root that is no mapping and no
    sequence and a path that is not empty after trimming: a root other
    than nil is recorded under the empty key of [modified] and the walk
    starts from a fresh empty mapping, and a call that returns normally
    still reports the old root there; a nil root is replaced by a fresh
    empty mapping before the check, the walk starts with [modified]
    empty, and nothing is reported under the empty key. *)
Theorem Set_root_reset (root : value) (path : string) (val : value) :
  is_container root = false ->
  trim_path path <> EmptyString ->
  (root <> VNil ->
   Config_Set root path val =
     of_walk (walk [] (Split (trim_path path)) val (VMap ∅)
                (<[EmptyString := root]> ∅) ∅) /\
   forall root' modified added,
     Config_Set root path val = SetOk root' modified added ->
     modified !! EmptyString = Some root) /\
  (root = VNil ->
   Config_Set root path val =
     of_walk (walk [] (Split (trim_path path)) val (VMap ∅) ∅ ∅) /\
   forall root' modified added,
     Config_Set root path val = SetOk root' modified added ->
     modified !! EmptyString = None).
Proof.
  intros Hroot Hpath.
  assert (Hjoin : EmptyString <> Join ([] ++ Split (trim_path path))).
  { simpl. rewrite Join_Split. congruence. }
  apply String.eqb_neq in Hpath.
  split.
  - intros Hnil.
    assert (Heq : Config_Set root path val =
      of_walk (walk [] (Split (trim_path path)) val (VMap ∅)
                 (<[EmptyString := root]> ∅) ∅)).
    { unfold Config_Set. rewrite Hpath. by destruct root. }
    split; [exact Heq|]. intros root' modified added Hset.
    rewrite Heq in Hset.
    destruct (walk _ _ _ _ _ _) as [c m a| |] eqn:Hw; try done.
    injection Hset as -> -> ->.
    destruct (walk_reports _ _ _ _ _ _ _ _ _ Hw EmptyString Hjoin) as [-> _].
    apply lookup_insert_eq.
  - intros ->.
    assert (Heq : Config_Set VNil path val =
      of_walk (walk [] (Split (trim_path path)) val (VMap ∅) ∅ ∅)).
    { unfold Config_Set. by rewrite Hpath. }
    split; [exact Heq|]. intros root' modified added Hset.
    rewrite Heq in Hset.
    destruct (walk _ _ _ _ _ _) as [c m a| |] eqn:Hw; try done.
    injection Hset as -> -> ->.
    destruct (walk_reports _ _ _ _ _ _ _ _ _ Hw EmptyString Hjoin) as [-> _].
    apply lookup_empty.
Qed.

Lemma Set_root_reset_witness :
  (forall root' modified added,
     Config_Set (VString "old") "a.b" (VInt 1) = SetOk root' modified added ->
     modified !! EmptyString = Some (VString "old")) /\
  (forall root' modified added,
     Config_Set VNil "a.b" (VInt 1) = SetOk root' modified added ->
     modified !! EmptyString = None).
Proof.
  split.
  - refine (proj2 (proj1 (Set_root_reset (VString "old") "a.b" (VInt 1) _ _) _));
      [reflexivity|discriminate|discriminate].
  - refine (proj2 (proj2 (Set_root_reset VNil "a.b" (VInt 1) _ _) _));
      [reflexivity|discriminate|reflexivity].
Defined.

(** C5, as stated, fails on the unset root: the old root is recorded
    nowhere. *)
Lemma Set_root_reset_counterexample :
  is_container VNil = false /\
  trim_path "a" <> EmptyString /\
  exists root' modified added,
    Config_Set VNil "a" (VInt 1) = SetOk root' modified added /\
    modified !! EmptyString = None.
Proof.
  split; [reflexivity|]. split; [discriminate|].
  eexists _, _, _. split; [vm_compute; reflexivity|]. reflexivity.
Qed.

Lemma walk_skips done keys val cur modified added :
  is_container cur = false ->
  walk done keys val cur modified added = WOk cur modified added.
Proof.
  revert done. induction keys as [|key rest IH]; intros pre Hc; [by simpl|].
  destruct cur; try done; simpl; by apply IH.
Qed.

(** One iteration of the loop that ends in [continue]. *)
Section steps.
Variables (pre : list string) (key next : string) (rest : list string).
Variables (val : value) (modified added : gmap string value).

Lemma walk_map_present (v : gmap string value) (obj obj' : value) :
  v !! key = Some obj ->
  resizeArray next obj = Ok obj' ->
  walk pre (key :: next :: rest) val (VMap v) modified added =
  rebuild (fun c => VMap (<[key := c]> v))
    (walk (pre ++ [key]) (next :: rest) val obj' modified added).
Proof.
  intros Hl Hr. remember (next :: rest) as keys eqn:Hk. simpl.
  rewrite Hl, Hk, Hr. reflexivity.
Qed.

Lemma walk_map_missing (v : gmap string value) (child : value) :
  v !! key = None ->
  fresh_child next = Ok child ->
  walk pre (key :: next :: rest) val (VMap v) modified added =
  rebuild (fun c => VMap (<[key := c]> v))
    (walk (pre ++ [key]) (next :: rest) val child modified added).
Proof.
  intros Hl Hc. unfold fresh_child in Hc.
  remember (next :: rest) as keys eqn:Hk. simpl.
  rewrite Hl, Hk, Hc. reflexivity.
Qed.

Lemma walk_seq_inside (v : list value) (arrIndex : Z) (child : value) :
  Atoi key = Some arrIndex ->
  (-1 <? arrIndex) && (arrIndex <? Z.of_nat (length v)) = true ->
  resizeArray next (default VNil (v !! Z.to_nat arrIndex)) = Ok child ->
  walk pre (key :: next :: rest) val (VSeq v) modified added =
  rebuild (fun c => VSeq (<[Z.to_nat arrIndex := c]> v))
    (walk (pre ++ [key]) (next :: rest) val child modified added).
Proof.
  intros Hi Hin Hr. remember (next :: rest) as keys eqn:Hk. simpl.
  rewrite Hi, Hin, Hk, Hr. reflexivity.
Qed.
End steps.


Lemma Config_Set_walk (root : value) (path : string) (val : value) :
  trim_path path <> EmptyString ->
  Config_Set root path val =
    of_walk (walk [] (Split (trim_path path)) val (start_root root)
               (start_modified root) ∅).
Proof.
  intros Hp. apply String.eqb_neq in Hp. unfold Config_Set. rewrite Hp.
  by destruct root.
Qed.




(** ** Running [Set] a second time *)

Lemma walk_shape pre keys val cur modified added cur' modified' added' :
  walk pre keys val cur modified added = WOk cur' modified' added' ->
  same_shape cur cur'.
Proof.
  intros Hw. destruct keys as [|key rest].
  { simpl in Hw. injection Hw as <- <- <-. destruct cur; simpl; eauto. }
  destruct cur as [| | | | |v|v];
    try (rewrite walk_skips in Hw by done; by injection Hw as <- <- <-).
  - simpl in Hw. simpl. destruct (v !! key) as [obj|].
    + destruct rest as [|next rest'].
      * destruct (deep_equal obj val); injection Hw as <- <- <-; eauto.
      * destruct (resizeArray next obj); try done.
        apply rebuild_ok in Hw as (c' & _ & ->). eauto.
    + destruct rest as [|next rest'].
      * injection Hw as <- <- <-; eauto.
      * destruct (match Atoi next with Some _ => _ | None => _ end); try done.
        apply rebuild_ok in Hw as (c' & _ & ->). eauto.
  - simpl in Hw. simpl. destruct (Atoi key) as [arrIndex|]; [|done].
    destruct (_ && _); [|done].
    destruct rest as [|next rest'].
    + destruct (default VNil _); [| destruct (deep_equal _ val) ..];
        injection Hw as <- <- <-; eexists; split; try done;
        by rewrite length_insert.
    + destruct (resizeArray next _); try done.
      apply rebuild_ok in Hw as (c' & _ & ->).
      eexists; split; [done|]. by rewrite length_insert.
Qed.

(** A sequence the loop has indexed with [key] is long enough for
    [resizeArray] to leave it alone. *)
Lemma resize_fixed pre key rest val cur modified added cur' modified' added' :
  walk pre (key :: rest) val cur modified added = WOk cur' modified' added' ->
  cur <> VNil ->
  resizeArray key cur' = Ok cur'.
Proof.
  intros Hw Hnil. pose proof (walk_shape _ _ _ _ _ _ _ _ _ Hw) as Hs.
  unfold resizeArray. destruct (Atoi key) as [index|] eqn:Hidx; [|done].
  destruct cur as [| | | | |v|v]; simpl in Hs; try (by subst cur').
  - by destruct Hs as [v' ->].
  - destruct Hs as (l' & -> & Hlen). simpl in Hw. rewrite Hidx in Hw.
    destruct (_ && _) eqn:Hin; [|done].
    apply andb_prop in Hin as [_ Hlt]. apply Z.ltb_lt in Hlt.
    rewrite Hlen. destruct (Z.leb_spec (Z.of_nat (length v)) index); [lia|done].
Qed.

Lemma resize_not_nil key obj obj' index :
  Atoi key = Some index -> resizeArray key obj = Ok obj' -> obj' <> VNil.
Proof.
  unfold resizeArray. intros ->. destruct obj; try (by intros [= <-]).
  - destruct (make_slice _); by intros [= <-].
  - destruct (_ <=? _); [destruct (make_slice _)|]; by intros [= <-].
Qed.

Lemma resize_stable pre key rest val obj obj' modified added cur' modified' added' :
  resizeArray key obj = Ok obj' ->
  walk pre (key :: rest) val obj' modified added = WOk cur' modified' added' ->
  resizeArray key cur' = Ok cur'.
Proof.
  intros Hres Hw. destruct (Atoi key) as [index|] eqn:Hidx.
  - eapply resize_fixed; [exact Hw|]. by eapply resize_not_nil.
  - unfold resizeArray. by rewrite Hidx.
Qed.

Lemma fresh_stable pre key rest val child modified added cur' modified' added' :
  fresh_child key = Ok child ->
  walk pre (key :: rest) val child modified added = WOk cur' modified' added' ->
  resizeArray key cur' = Ok cur'.
Proof.
  intros Hc Hw. eapply resize_fixed; [exact Hw|].
  unfold fresh_child, makeArray, makeMap in Hc.
  destruct (Atoi key); [destruct (make_slice _)|]; try done; by injection Hc as <-.
Qed.

Lemma walk_again keys : forall pre val cur modified added cur' modified' added',
  walk pre keys val cur modified added = WOk cur' modified' added' ->
  val <> VNil ->
  deep_equal val val = true ->
  forall modified2 added2,
    walk pre keys val cur' modified2 added2 = WOk cur' modified2 added2.
Proof.
  induction keys as [|key rest IH];
    intros pre val cur modified added cur' modified' added' Hw Hnil Heq m2 a2.
  { reflexivity. }
  destruct cur as [| | | | |v|v];
    try (rewrite walk_skips in Hw by done; injection Hw as <- <- <-;
         by rewrite walk_skips).
  - destruct rest as [|next rest'].
    + simpl in Hw. simpl. destruct (v !! key) as [obj|] eqn:Hl.
      * destruct (deep_equal obj val) eqn:Hd; injection Hw as <- <- <-.
        -- by rewrite Hl, Hd.
        -- by rewrite lookup_insert_eq, Heq.
      * injection Hw as <- <- <-. by rewrite lookup_insert_eq, Heq.
    + assert (Hnext : forall child c',
        walk (pre ++ [key]) (next :: rest') val child modified added
          = WOk c' modified' added' ->
        resizeArray next c' = Ok c' ->
        walk pre (key :: next :: rest') val (VMap (<[key := c']> v)) m2 a2
          = WOk (VMap (<[key := c']> v)) m2 a2).
      { intros child c' Hc Hfix.
        rewrite (walk_map_present _ _ _ _ _ _ _ _ c' c'
                   (lookup_insert_eq _ _ _) Hfix).
        rewrite (IH _ _ _ _ _ _ _ _ Hc Hnil Heq). simpl.
        by rewrite insert_insert_eq. }
      destruct (v !! key) as [obj|] eqn:Hl.
      * destruct (resizeArray next obj) as [obj'| |] eqn:Hres.
        -- rewrite (walk_map_present _ _ _ _ _ _ _ _ _ _ Hl Hres) in Hw.
           apply rebuild_ok in Hw as (c' & Hc & ->).
           eapply Hnext; [exact Hc|]. by eapply resize_stable.
        -- simpl in Hw. by rewrite Hl, Hres in Hw.
        -- simpl in Hw. by rewrite Hl, Hres in Hw.
      * destruct (fresh_child next) as [child| |] eqn:Hchild.
        -- rewrite (walk_map_missing _ _ _ _ _ _ _ _ _ Hl Hchild) in Hw.
           apply rebuild_ok in Hw as (c' & Hc & ->).
           eapply Hnext; [exact Hc|]. by eapply fresh_stable.
        -- simpl in Hw. unfold fresh_child in Hchild. by rewrite Hl, Hchild in Hw.
        -- simpl in Hw. unfold fresh_child in Hchild. by rewrite Hl, Hchild in Hw.
  - destruct (Atoi key) as [arrIndex|] eqn:Hidx; [|by simpl in Hw; rewrite Hidx in Hw].
    destruct ((-1 <? arrIndex) && (arrIndex <? Z.of_nat (length v))) eqn:Hin;
      [|by simpl in Hw; rewrite Hidx, Hin in Hw].
    assert (Hlt : (Z.to_nat arrIndex < length v)%nat).
    { apply andb_prop in Hin as [H1 H2]. apply Z.ltb_lt in H1, H2. lia. }
    destruct rest as [|next rest'].
    + simpl in Hw. rewrite Hidx, Hin in Hw. simpl. rewrite Hidx.
      assert (Hwritten :
        walk pre [key] val (VSeq (<[Z.to_nat arrIndex := val]> v)) m2 a2
          = WOk (VSeq (<[Z.to_nat arrIndex := val]> v)) m2 a2).
      { simpl. rewrite Hidx, length_insert, Hin.
        rewrite list_lookup_insert_eq by done. simpl.
        rewrite Heq. by destruct val. }
      simpl in Hwritten. rewrite Hidx in Hwritten.
      destruct (default VNil (v !! Z.to_nat arrIndex)) eqn:Hold;
        try (injection Hw as <- <- <-; exact Hwritten);
        (destruct (deep_equal _ val) eqn:Hd; injection Hw as <- <- <-;
         [by rewrite Hin, Hold, Hd | exact Hwritten]).
    + destruct (resizeArray next (default VNil (v !! Z.to_nat arrIndex)))
        as [child| |] eqn:Hres;
        [|by simpl in Hw; rewrite Hidx, Hin, Hres in Hw ..].
      rewrite (walk_seq_inside _ _ _ _ _ _ _ _ _ _ Hidx Hin Hres) in Hw.
      apply rebuild_ok in Hw as (c' & Hc & ->).
      assert (Hin' : (-1 <? arrIndex) &&
                (arrIndex <? Z.of_nat (length (<[Z.to_nat arrIndex := c']> v))) = true)
        by by rewrite length_insert.
      assert (Hfix : resizeArray next
                (default VNil (<[Z.to_nat arrIndex := c']> v !! Z.to_nat arrIndex))
                = Ok c').
      { rewrite list_lookup_insert_eq by done. simpl. by eapply resize_stable. }
      rewrite (walk_seq_inside _ _ _ _ _ _ _ _ _ _ Hidx Hin' Hfix).
      rewrite (IH _ _ _ _ _ _ _ _ Hc Hnil Heq). simpl.
      by rewrite list_insert_insert_eq.
Qed.

Lemma start_root_container (root : value) : is_container (start_root root) = true.
Proof. by destruct root. Qed.

(** C6, as the code has it.  With a path that is not empty after
    trimming and a value that is not nil and that [reflect.DeepEqual]
    finds equal to itself: when a call of [Set] returns normally, the
    same call on the root it left returns normally with [modified] and
    [added] empty and leaves the root as it is. *)
Theorem Set_twice (root : value) (path : string) (val : value)
    (root' : value) (modified added : gmap string value) :
  trim_path path <> EmptyString ->
  val <> VNil ->
  deep_equal val val = true ->
  Config_Set root path val = SetOk root' modified added ->
  Config_Set root' path val = SetOk root' ∅ ∅.
Proof.
  intros Hp Hnil Heq Hset.
  rewrite Config_Set_walk in Hset by done.
  destruct (walk _ _ _ _ _ _) as [c m a| |] eqn:Hw; try done.
  injection Hset as -> -> ->.
  assert (Hstart : start_root root' = root' /\ start_modified root' = ∅).
  { pose proof (walk_shape _ _ _ _ _ _ _ _ _ Hw) as Hs.
    pose proof (start_root_container root) as Hc.
    destruct (start_root root); try done; simpl in Hs.
    - by destruct Hs as [v' ->].
    - by destruct Hs as (l' & -> & _). }
  destruct Hstart as [Hr Hm].
  rewrite Config_Set_walk, Hr, Hm by done.
  by rewrite (walk_again _ _ _ _ _ _ _ _ _ Hw Hnil Heq).
Qed.

Lemma Set_twice_witness :
  Config_Set (VMap {["list" := VSeq [VInt 1; VNil; VNil; VInt 7]]})
    "list.3" (VInt 7)
  = SetOk (VMap {["list" := VSeq [VInt 1; VNil; VNil; VInt 7]]}) ∅ ∅.
Proof.
  apply (Set_twice (VMap {["list" := VSeq [VInt 1]]}) "list.3" (VInt 7)
           (VMap {["list" := VSeq [VInt 1; VNil; VNil; VInt 7]]})
           ∅ {["list.3" := VNil]});
    [discriminate|discriminate|reflexivity|vm_compute; reflexivity].
Defined.

(** C6, as stated, fails on the empty path, where the second call
    reports the value under the empty key of [added] again; on a
    sequence slot set to nil, which the second call finds nil and
    reports as added; and on a NaN, which differs from itself. *)
Lemma Set_twice_counterexample :
  (Config_Set (VMap ∅) EmptyString (VInt 1) = SetOk (VInt 1) ∅ {[EmptyString := VInt 1]} /\
   Config_Set (VInt 1) EmptyString (VInt 1) = SetOk (VInt 1) ∅ {[EmptyString := VInt 1]}) /\
  (Config_Set (VMap {["a" := VSeq [VInt 1]]}) "a.0" VNil
     = SetOk (VMap {["a" := VSeq [VNil]]}) {["a.0" := VInt 1]} ∅ /\
   Config_Set (VMap {["a" := VSeq [VNil]]}) "a.0" VNil
     = SetOk (VMap {["a" := VSeq [VNil]]}) ∅ {["a.0" := VNil]}) /\
  (Config_Set (VMap ∅) "a" (VFloat S754_nan)
     = SetOk (VMap {["a" := VFloat S754_nan]}) ∅ {["a" := VFloat S754_nan]} /\
   Config_Set (VMap {["a" := VFloat S754_nan]}) "a" (VFloat S754_nan)
     = SetOk (VMap {["a" := VFloat S754_nan]}) {["a" := VFloat S754_nan]} ∅) /\
  ({[EmptyString := VInt 1]} : gmap string value) <> ∅.
Proof. repeat split; try (vm_compute; reflexivity). discriminate. Qed.

(** ** [Get] after [Set] *)

Lemma ref_at_scalar n : forall keys cur c,
  ref_at n keys cur = Some c -> is_container cur = false -> c = cur.
Proof.
  induction n as [|n IH]; intros [|key rest] cur c Href Hc; try done.
  - by injection Href as <-.
  - destruct cur; try done; simpl in Href; by eapply IH.
Qed.

Lemma get_walk_read keys : forall n pre pre' val cur modified added
    cur' modified' added' c,
  walk pre keys val cur modified added = WOk cur' modified' added' ->
  length keys = S n ->
  ref_at n keys cur = Some c ->
  is_container c = true ->
  exists v', get_walk pre' keys cur' = Ok v' /\
             (v' = val \/ deep_equal v' val = true).
Proof.
  induction keys as [|key rest IH];
    intros n pre pre' val cur modified added cur' modified' added' c
           Hw Hlen Href Hc; [done|].
  destruct cur as [| | | | |v|v];
    try (apply ref_at_scalar in Href; [by subst c|done]).
  - destruct rest as [|next rest'].
    + simpl in Hw. simpl. destruct (v !! key) as [obj|] eqn:Hl.
      * destruct (deep_equal obj val) eqn:Hd; injection Hw as <- <- <-.
        -- rewrite Hl. eauto.
        -- rewrite lookup_insert_eq. eauto.
      * injection Hw as <- <- <-. rewrite lookup_insert_eq. eauto.
    + destruct n as [|n]; [done|]. apply (f_equal Nat.pred) in Hlen; simpl in Hlen.
      assert (Hnext : forall child c',
        walk (pre ++ [key]) (next :: rest') val child modified added
          = WOk c' modified' added' ->
        ref_at n (next :: rest') child = Some c ->
        exists v', get_walk pre' (key :: next :: rest') (VMap (<[key := c']> v))
                     = Ok v' /\ (v' = val \/ deep_equal v' val = true)).
      { intros child c' Hwc Hrc.
        destruct (IH n _ (pre' ++ [key]) _ _ _ _ _ _ _ _ Hwc Hlen Hrc Hc)
          as (v' & Hg & Hv).
        exists v'. split; [|done].
        remember (next :: rest') as keys. simpl. by rewrite lookup_insert_eq. }
      simpl in Href. destruct (v !! key) as [obj|] eqn:Hl.
      * destruct (resizeArray next obj) as [obj'| |] eqn:Hres; try done.
        rewrite (walk_map_present _ _ _ _ _ _ _ _ _ _ Hl Hres) in Hw.
        apply rebuild_ok in Hw as (c' & Hwc & ->). by eapply Hnext.
      * destruct (fresh_child next) as [child| |] eqn:Hchild; try done.
        rewrite (walk_map_missing _ _ _ _ _ _ _ _ _ Hl Hchild) in Hw.
        apply rebuild_ok in Hw as (c' & Hwc & ->). by eapply Hnext.
  - destruct (Atoi key) as [arrIndex|] eqn:Hidx;
      [|by simpl in Hw; rewrite Hidx in Hw].
    destruct ((-1 <? arrIndex) && (arrIndex <? Z.of_nat (length v))) eqn:Hin;
      [|by simpl in Hw; rewrite Hidx, Hin in Hw].
    assert (Hread : forall x,
      get_walk pre' (key :: rest) (VSeq (<[Z.to_nat arrIndex := x]> v))
      = get_walk (pre' ++ [key]) rest x).
    { intros x. simpl. unfold ParseInt, slice_index. rewrite Hidx, length_insert.
      apply andb_prop in Hin as [H1 H2]. rewrite H2.
      apply Z.ltb_lt in H1, H2.
      destruct (Z.leb_spec 0 arrIndex); [|lia]. simpl.
      rewrite list_lookup_insert_eq by lia. reflexivity. }
    destruct rest as [|next rest'].
    + simpl in Hw. rewrite Hidx, Hin in Hw.
      assert (Hsame : exists old, v !! Z.to_nat arrIndex = Some old /\
                 default VNil (v !! Z.to_nat arrIndex) = old).
      { apply andb_prop in Hin as [H1 H2]. apply Z.ltb_lt in H1, H2.
        destruct (lookup_lt_is_Some_2 v (Z.to_nat arrIndex)) as [old Ho]; [lia|].
        exists old. by rewrite Ho. }
      destruct Hsame as (old & Ho & Hd). rewrite Hd in Hw.
      assert (Hkeep : get_walk pre' [key] (VSeq v) = Ok old).
      { rewrite <- (list_insert_id v _ _ Ho), Hread. reflexivity. }
      destruct old; try (injection Hw as <- <- <-; rewrite Hread; eauto);
        (destruct (deep_equal _ val) eqn:Heq; injection Hw as <- <- <-;
         [rewrite Hkeep; eauto | rewrite Hread; eauto]).
    + destruct n as [|n]; [done|]. apply (f_equal Nat.pred) in Hlen; simpl in Hlen.
      simpl in Href. rewrite Hidx, Hin in Href.
      destruct (resizeArray next _) as [child| |] eqn:Hres; try done.
      rewrite (walk_seq_inside _ _ _ _ _ _ _ _ _ _ Hidx Hin Hres) in Hw.
      apply rebuild_ok in Hw as (c' & Hwc & ->). rewrite Hread.
      by eapply IH.
Qed.

(** C2, as the code has it.  Let a call of [Set] return normally.
    When the path is empty for [Set] and for [Get], [Get] on the new
    root returns the value.  When the path is not empty, [Get] splits it
    into the segments [Set] walked, and the last iteration of the loop
    of [Set] found a mapping or a sequence, [Get] on the new root
    returns the value that was set or the stored value that
    [reflect.DeepEqual] found equal to it. *)
Theorem Get_after_Set (root : value) (path : string) (val : value)
    (root' : value) (modified added : gmap string value) :
  Config_Set root path val = SetOk root' modified added ->
  (trim_path path = EmptyString ->
   normalize_parts path = Ok [] ->
   Get root' path = Ok val) /\
  (trim_path path <> EmptyString ->
   normalize_parts path = Ok (Split (trim_path path)) ->
   forall c,
     ref_at (length (Split (trim_path path)) - 1) (Split (trim_path path))
       (start_root root) = Some c ->
     is_container c = true ->
     exists v', Get root' path = Ok v' /\
                (v' = val \/ deep_equal v' val = true)).
Proof.
  intros Hset. split.
  - intros Hp Hparts. rewrite (Config_Set_empty root path val Hp) in Hset.
    injection Hset as <- _ _. unfold Get. by rewrite Hparts.
  - intros Hp Hparts c Href Hc. unfold Get. rewrite Hparts.
    rewrite Config_Set_walk in Hset by done.
    destruct (walk _ _ _ _ _ _) as [cur' m a| |] eqn:Hw; try done.
    injection Hset as -> -> ->.
    destruct (Split (trim_path path)) as [|key rest] eqn:Hkeys;
      [by apply Split_nonempty in Hkeys|].
    eapply (get_walk_read _ (length rest)); [exact Hw|done| |exact Hc].
    simpl in Href. by rewrite Nat.sub_0_r in Href.
Qed.

Lemma Get_after_Set_witness :
  exists v', Get (VMap {["a" := VMap {["b" := VSeq [VNil; VNil; VString "x"]]}]})
               "a.b.2" = Ok v' /\
             (v' = VString "x" \/ deep_equal v' (VString "x") = true).
Proof.
  refine (proj2 (Get_after_Set (VMap ∅) "a.b.2" (VString "x")
                   (VMap {["a" := VMap {["b" := VSeq [VNil; VNil; VString "x"]]}]})
                   ∅ {["a.b.2" := VNil]} _) _ _ (VSeq [VNil; VNil; VNil]) _ _);
    [vm_compute; reflexivity|discriminate|reflexivity|reflexivity|reflexivity].
Defined.

(** C2, as stated, fails where the walk of [Set] runs into a scalar:
    [Set] returns normally and has written nothing, and [Get] on the
    same path returns an error. *)
Lemma Get_after_Set_counterexample :
  Config_Set (VMap {["a" := VString "s"]}) "a.b" (VInt 1)
    = SetOk (VMap {["a" := VString "s"]}) ∅ ∅ /\
  Get (VMap {["a" := VString "s"]}) "a.b" = Err (ErrInvalidType "a.b").
Proof. split; vm_compute; reflexivity. Qed.

(** ** No sequence shrinks *)

Lemma tree_of_rebuild (f : value -> value) (r : walk_result) :
  tree_of (rebuild f r) = f <$> tree_of r.
Proof. by destruct r. Qed.


Lemma length_copy_into (t arr : list value) :
  (length arr <= length t)%nat -> length (copy_into t arr) = length t.
Proof.
  intros Hle. unfold copy_into.
  rewrite length_app, length_take, length_drop. lia.
Qed.

Lemma lookup_copy_into (t arr : list value) (j : nat) (x : value) :
  arr !! j = Some x -> (length arr <= length t)%nat ->
  copy_into t arr !! j = Some x.
Proof.
  intros Hj Hle. unfold copy_into. apply lookup_app_l_Some.
  rewrite lookup_take_lt; [done|]. apply lookup_lt_Some in Hj. lia.
Qed.

Lemma Atoi_range key index :
  Atoi key = Some index -> int_min <= index <= int_max.
Proof.
  unfold Atoi. destruct key as [|c s]; [done|].
  destruct (if Ascii.eqb c "-" then _ else _) as [neg body].
  destruct body; [done|]. destruct (parse_digits _ _) as [n|]; [|done].
  destruct (_ && _) eqn:Hr; [|done]. intros [= <-].
  apply andb_prop in Hr as [H1 H2]. apply Z.leb_le in H1, H2. lia.
Qed.

Lemma int_add_1 index :
  int_min <= index <= int_max -> 0 <= index -> 0 <= int_add index 1 ->
  int_add index 1 = index + 1.
Proof.
  unfold int_add, wrap, int_min, int_max. intros Hr Hpos Hok.
  destruct (Z.eq_dec index (2 ^ 63 - 1)) as [->|Hne].
  - exfalso. vm_compute in Hok. by apply Hok.
  - rewrite Z.mod_small; lia.
Qed.

(** What [resizeArray] does to a sequence: nothing, or it grows it to
    hold the index, keeping the elements. *)
Lemma resize_seq key arr obj' :
  resizeArray key (VSeq arr) = Ok obj' ->
  obj' = VSeq arr \/
  exists index arr',
    Atoi key = Some index /\ Z.of_nat (length arr) <= index /\
    obj' = VSeq arr' /\ (length arr <= length arr')%nat /\
    forall j x, arr !! j = Some x -> arr' !! j = Some x.
Proof.
  unfold resizeArray.
  destruct (Atoi key) as [index|] eqn:Hidx; [|intros [= <-]; by left].
  destruct (Z.leb_spec (Z.of_nat (length arr)) index) as [Hle|Hgt];
    [|intros [= <-]; by left].
  unfold make_slice. destruct (Z.ltb_spec (int_add index 1) 0); [done|].
  intros [= <-]. right.
  exists index, (copy_into (replicate (Z.to_nat (int_add index 1)) VNil) arr).
  assert (Hlen : (length arr <= Z.to_nat (int_add index 1))%nat).
  { rewrite int_add_1; [lia| |lia|done]. by apply (Atoi_range key). }
  repeat split; try done.
  - rewrite length_copy_into; rewrite length_replicate; done.
  - intros j x Hj. apply lookup_copy_into; [done|]. by rewrite length_replicate.
Qed.









Lemma root_after_of_walk (r : walk_result) : root_after (of_walk r) = tree_of r.
Proof. by destruct r. Qed.





(** * Further properties *)

(** ** Paths *)

Lemma Split_dot (p q : string) : Split (dot p q) = Split p ++ Split q.
Proof.
  unfold dot. induction p as [|a p IH]; [done|].
  change (String.append (String a p) (String "." q))
    with (String a (String.append p (String "." q))).
  cbn [Split]. rewrite IH.
  destruct (Ascii.eqb a "."); [done|].
  destruct (Split p) as [|h t] eqn:E; [by apply Split_nonempty in E|done].
Qed.

Lemma existsb_empty_false (parts : list string) :
  Forall (fun part => part <> EmptyString) parts ->
  existsb (String.eqb EmptyString) parts = false.
Proof.
  induction 1 as [|part parts Hp _ IH]; [done|]. cbn [existsb]. rewrite IH.
  destruct (String.eqb_spec EmptyString part); [congruence|done].
Qed.

Lemma normalize_clean (path : string) :
  clean path -> normalize_parts path = Ok (Split path).
Proof.
  unfold clean, normalize_parts. intros Hc.
  destruct (Split path) as [|first others]; [done|].
  apply Forall_cons in Hc as [Hf Ho]. rewrite (existsb_empty_false _ Ho).
  destruct (String.eqb_spec first EmptyString); [done|done].
Qed.

(** ** [Get] *)

(** A value [Get] returns does not depend on the segments already
    walked, which only errors quote. *)
Lemma get_walk_ok parts : forall pre pre' cfg v,
  get_walk pre parts cfg = Ok v -> get_walk pre' parts cfg = Ok v.
Proof.
  induction parts as [|part rest IH]; intros pre pre' cfg v Hg; [done|].
  simpl in *. destruct cfg as [| | | | |c|c]; try done.
  - destruct (c !! part); [|done]. by eapply IH.
  - destruct (ParseInt part) as [i|]; [|done].
    destruct (i <? Z.of_nat (length c)); [|done].
    destruct (slice_index c i); try done. by eapply IH.
Qed.

Lemma get_walk_app parts1 : forall parts2 pre cfg w,
  get_walk pre (parts1 ++ parts2) cfg = Ok w <->
  exists v, get_walk pre parts1 cfg = Ok v /\
            get_walk (pre ++ parts1) parts2 v = Ok w.
Proof.
  induction parts1 as [|part rest IH]; intros parts2 pre cfg w.
  { simpl. rewrite app_nil_r. split; [eauto|]. by intros (v & [= <-] & Hw). }
  assert (Hpre : pre ++ part :: rest = (pre ++ [part]) ++ rest)
    by by rewrite <- app_assoc.
  rewrite Hpre. simpl.
  destruct cfg as [| | | | |c|c];
    try (split; [done|by intros (v & Hv & _)]).
  - destruct (c !! part); [apply IH|]. split; [done|by intros (v & Hv & _)].
  - destruct (ParseInt part) as [i|]; [|split; [done|by intros (v & Hv & _)]].
    destruct (i <? Z.of_nat (length c)); [|split; [done|by intros (v & Hv & _)]].
    destruct (slice_index c i); [apply IH|..]; (split; [done|by intros (v & Hv & _)]).
Qed.

Lemma slice_index_not_err (c : list value) (i : Z) (e : error) :
  slice_index c i <> Err e.
Proof.
  unfold slice_index. destruct (_ && _); [|done]. by destruct (c !! Z.to_nat i).
Qed.

Lemma get_walk_path_valid parts : forall pre cfg p,
  get_walk pre parts cfg <> Err (ErrInvalidPath p).
Proof.
  induction parts as [|part rest IH]; intros pre cfg p; [done|].
  simpl. destruct cfg as [| | | | |c|c]; try done.
  - destruct (c !! part); [apply IH|done].
  - destruct (ParseInt part) as [i|]; [|done].
    destruct (i <? Z.of_nat (length c)); [|done].
    destruct (slice_index c i) eqn:Hs; try done.
    by apply slice_index_not_err in Hs.
Qed.

Lemma get_walk_no_panic parts : forall pre cfg,
  Forall (fun part => forall i, Atoi part = Some i -> 0 <= i) parts ->
  get_walk pre parts cfg <> Panic.
Proof.
  induction parts as [|part rest IH]; intros pre cfg Hparts; [done|].
  apply Forall_cons in Hparts as [Hpart Hrest].
  simpl. destruct cfg as [| | | | |c|c]; try done.
  - destruct (c !! part); [by apply IH|done].
  - unfold ParseInt. destruct (Atoi part) as [i|] eqn:Hi; [|done].
    destruct (Z.ltb_spec i (Z.of_nat (length c))) as [Hlt|]; [|done].
    unfold slice_index. specialize (Hpart i eq_refl).
    destruct (Z.leb_spec 0 i); [|lia].
    destruct (Z.ltb_spec i (Z.of_nat (length c))); [|lia]. simpl.
    destruct (lookup_lt_is_Some_2 c (Z.to_nat i)) as [x ->]; [lia|].
    by apply IH.
Qed.

(** X1.  [Get] on the empty path returns the root.  One leading dot is
    ignored when no segment after it is empty; the path that is only a
    dot is invalid, since the segment after the dot is empty. *)
Theorem Get_leading_dot (cfg : value) :
  Get cfg EmptyString = Ok cfg /\
  Get cfg "." = Err (ErrInvalidPath ".") /\
  forall p, clean p -> Get cfg (String "." p) = Get cfg p.
Proof.
  split; [done|]. split; [done|]. intros p Hc. unfold Get.
  rewrite (normalize_clean p Hc). unfold normalize_parts. cbn [Split].
  change (Ascii.eqb "." ".") with true. cbv iota.
  by rewrite (existsb_empty_false _ Hc).
Qed.

Lemma Get_leading_dot_witness :
  Get numbers ".s" = Get numbers "s".
Proof.
  apply (proj2 (proj2 (Get_leading_dot numbers)) "s").
  repeat constructor. discriminate.
Defined.

(** X2.  [Get] returns the invalid-path error exactly when a segment
    other than the first is empty, and the error quotes the path. *)
Theorem Get_invalid_path (cfg : value) (path p : string) :
  Get cfg path = Err (ErrInvalidPath p) <->
  p = path /\ EmptyString ∈ tail (Split path).
Proof.
  unfold Get, normalize_parts.
  destruct (Split path) as [|first others] eqn:Hs; [by apply Split_nonempty in Hs|].
  simpl tail. destruct (existsb (String.eqb EmptyString) others) eqn:Hex.
  - apply existsb_exists in Hex as (x & Hin & Hx).
    apply String.eqb_eq in Hx as <-. apply list_elem_of_In in Hin.
    split; [by intros [= <-]|by intros [-> _]].
  - split.
    + intros Hg. exfalso.
      destruct (String.eqb first EmptyString); by apply get_walk_path_valid in Hg.
    + intros [_ Hin]. exfalso. apply list_elem_of_In in Hin.
      assert (existsb (String.eqb EmptyString) others = true) as Ht.
      { apply existsb_exists. exists EmptyString. split; [done|]. by apply String.eqb_eq. }
      congruence.
Qed.

(** X3.  Walking [p] and then [q] from the value found is walking
    [p.q]: [cfg.Get(p)] followed by [Get(q)] on its result finds what
    [cfg.Get(p.q)] finds, when no segment is empty. *)
Theorem Get_compose (cfg : value) (p q : string) (w : value) :
  clean p -> clean q ->
  Config_Get cfg (dot p q) = Ok w <->
  exists v, Config_Get cfg p = Ok v /\ Config_Get v q = Ok w.
Proof.
  intros Hp Hq.
  assert (Hpq : clean (dot p q)).
  { unfold clean. rewrite Split_dot. by apply Forall_app. }
  assert (Hget : forall c path, Config_Get c path = Get c path).
  { intros c path. unfold Config_Get. by destruct (Get c path). }
  rewrite Hget. setoid_rewrite Hget. unfold Get.
  rewrite (normalize_clean _ Hpq), (normalize_clean _ Hp), (normalize_clean _ Hq).
  rewrite Split_dot, get_walk_app. simpl.
  split; intros (v & Hv & Hw); exists v; (split; [done|]);
    by eapply get_walk_ok.
Qed.

Lemma Get_compose_witness :
  Config_Get lists (dot "list" "1.0") = Ok (VInt 2) <->
  exists v, Config_Get lists "list" = Ok v /\ Config_Get v "1.0" = Ok (VInt 2).
Proof.
  apply (Get_compose lists "list" "1.0" (VInt 2));
    repeat constructor; discriminate.
Defined.

(** X4.  [Get] panics only on a negative index: when no segment of the
    path reads as a negative integer, [Get] returns a value or an
    error. *)
Theorem Get_no_panic (cfg : value) (path : string) :
  Forall (fun part => forall i, Atoi part = Some i -> 0 <= i) (Split path) ->
  Get cfg path <> Panic.
Proof.
  intros Hparts. unfold Get, normalize_parts.
  destruct (Split path) as [|first others]; [done|].
  destruct (existsb _ others); [done|].
  destruct (String.eqb first EmptyString).
  - apply get_walk_no_panic. by apply Forall_cons in Hparts as [_ ?].
  - by apply get_walk_no_panic.
Qed.

Lemma Get_no_panic_witness : Get lists "list.7.x" <> Panic.
Proof.
  apply (Get_no_panic lists "list.7.x").
  repeat constructor; intros i Hi; vm_compute in Hi; try discriminate;
    injection Hi as <-; lia.
Defined.

(** ** What [Set] leaves and reports *)

Lemma resize_not_err key obj e : resizeArray key obj <> Err e.
Proof.
  unfold resizeArray, make_slice. destruct (Atoi key); [|done].
  destruct obj; try done.
  - by destruct (_ <? 0).
  - destruct (_ <=? _); [|done]. by destruct (_ <? 0).
Qed.

Lemma fresh_not_err key e : fresh_child key <> Err e.
Proof.
  unfold fresh_child, makeArray, make_slice. destruct (Atoi key); [|done].
  by destruct (_ <? 0).
Qed.

Lemma walk_tree_shape pre keys val cur modified added c :
  tree_of (walk pre keys val cur modified added) = Some c ->
  same_shape cur c.
Proof.
  intros Ht. destruct keys as [|key rest].
  { simpl in Ht. injection Ht as <-. destruct cur; simpl; eauto. }
  destruct cur as [| | | | |v|v];
    try (rewrite walk_skips in Ht by done; by injection Ht as <-).
  - simpl in Ht. simpl. destruct (v !! key) as [obj|].
    + destruct rest as [|next rest'].
      * destruct (deep_equal obj val); injection Ht as <-; eauto.
      * destruct (resizeArray next obj); try done; [|injection Ht as <-; eauto].
        rewrite tree_of_rebuild in Ht.
        destruct (tree_of _); [|done]. injection Ht as <-. eauto.
    + destruct rest as [|next rest'].
      * injection Ht as <-; eauto.
      * destruct (match Atoi next with Some _ => _ | None => _ end); try done;
          [|injection Ht as <-; eauto].
        rewrite tree_of_rebuild in Ht.
        destruct (tree_of _); [|done]. injection Ht as <-. eauto.
  - simpl in Ht. simpl.
    destruct (Atoi key) as [arrIndex|]; [|injection Ht as <-; eauto].
    destruct (_ && _); [|injection Ht as <-; eauto].
    destruct rest as [|next rest'].
    + destruct (default VNil _); [| destruct (deep_equal _ val) ..];
        injection Ht as <-; eexists; split; try done;
        by rewrite length_insert.
    + destruct (resizeArray next _); try done; [|injection Ht as <-; eauto].
      rewrite tree_of_rebuild in Ht.
      destruct (tree_of _); [|done]. injection Ht as <-.
      eexists; split; [done|]. by rewrite length_insert.
Qed.

(** X5.  [Set] on a path that is not empty never replaces or resizes
    the root container: when the call returns, normally or with an
    error, a root that was a mapping, or was no container, is a
    mapping, and a root that was a sequence is a sequence of the same
    length. *)
Theorem Set_root_shape (root : value) (path : string) (val root' : value) :
  trim_path path <> EmptyString ->
  root_after (Config_Set root path val) = Some root' ->
  same_shape (start_root root) root'.
Proof.
  intros Hp Hafter. rewrite Config_Set_walk, root_after_of_walk in Hafter by done.
  by eapply walk_tree_shape.
Qed.

Lemma Set_root_shape_witness :
  same_shape (start_root (VSeq [VInt 1; VInt 2])) (VSeq [VInt 1; VInt 2]).
Proof.
  apply (Set_root_shape (VSeq [VInt 1; VInt 2]) "5" (VInt 9));
    [discriminate|vm_compute; reflexivity].
Defined.

(** The loop reports at most once, and under the full path. *)
Lemma walk_report_one keys : forall pre val cur modified added c modified' added',
  walk pre keys val cur modified added = WOk c modified' added' ->
  (modified' = modified /\ added' = added) \/
  (exists old, deep_equal old val = false /\
     modified' = <[Join (pre ++ keys) := old]> modified /\ added' = added) \/
  (exists x, (x = val \/ x = VNil) /\
     modified' = modified /\ added' = <[Join (pre ++ keys) := x]> added).
Proof.
  induction keys as [|key rest IH];
    intros pre val cur modified added c modified' added' Hw.
  { simpl in Hw. injection Hw as <- <- <-. by left. }
  assert (Hrec : forall cur' f,
    rebuild f (walk (pre ++ [key]) rest val cur' modified added)
      = WOk c modified' added' ->
    (modified' = modified /\ added' = added) \/
    (exists old, deep_equal old val = false /\
       modified' = <[Join (pre ++ key :: rest) := old]> modified /\ added' = added) \/
    (exists x, (x = val \/ x = VNil) /\
       modified' = modified /\ added' = <[Join (pre ++ key :: rest) := x]> added)).
  { intros cur' f Hr. apply rebuild_ok in Hr as (c' & Hr & _).
    rewrite <- app_cons_assoc. by eapply IH. }
  simpl in Hw. destruct cur as [| | | | |v|v];
    try (rewrite <- app_cons_assoc; by eapply IH).
  - destruct (v !! key) as [obj|].
    + destruct rest as [|next rest'].
      * destruct (deep_equal obj val) eqn:Hd; injection Hw as <- <- <-;
          [by left|right; left; eauto].
      * destruct (resizeArray next obj); try done. by eapply Hrec.
    + destruct rest as [|next rest'].
      * injection Hw as <- <- <-. right; right; eauto.
      * destruct (match Atoi next with Some _ => _ | None => _ end); try done.
        by eapply Hrec.
  - destruct (Atoi key) as [arrIndex|]; [|done].
    destruct (_ && _); [|done].
    destruct rest as [|next rest'].
    + destruct (default VNil _) eqn:Hold;
        [injection Hw as <- <- <-; right; right; eauto
        | destruct (deep_equal _ val) eqn:Hd; injection Hw as <- <- <-;
          [by left|right; left; eauto] ..].
    + destruct (resizeArray next _); try done. by eapply Hrec.
Qed.

(** X6.  A call of [Set] on a path that is not empty, when it returns
    normally, reports at most one entry beyond the root reset, under
    the trimmed path: either nothing, or in [modified] the old value,
    which [reflect.DeepEqual] told from the new one, or in [added] the
    new value (a key that was missing) or nil (a slot that was nil). *)
Theorem Set_reports (root : value) (path : string) (val root' : value)
    (modified added : gmap string value) :
  trim_path path <> EmptyString ->
  Config_Set root path val = SetOk root' modified added ->
  (modified = start_modified root /\ added = ∅) \/
  (exists old, deep_equal old val = false /\
     modified = <[trim_path path := old]> (start_modified root) /\ added = ∅) \/
  (exists x, (x = val \/ x = VNil) /\
     modified = start_modified root /\ added = <[trim_path path := x]> ∅).
Proof.
  intros Hp Hset. rewrite Config_Set_walk in Hset by done.
  destruct (walk _ _ _ _ _ _) as [c m a| |] eqn:Hw; try done.
  injection Hset as -> -> ->.
  apply walk_report_one in Hw. simpl in Hw. by rewrite Join_Split in Hw.
Qed.

Lemma Set_reports_witness :
  (({["a.1" := VInt 2]} : gmap string value) = start_modified (VMap {["a" := VSeq [VInt 1; VInt 2]]}) /\
   (∅ : gmap string value) = ∅) \/
  (exists old, deep_equal old (VInt 3) = false /\
     ({["a.1" := VInt 2]} : gmap string value)
       = <[trim_path "a.1" := old]> (start_modified (VMap {["a" := VSeq [VInt 1; VInt 2]]})) /\
     (∅ : gmap string value) = ∅) \/
  (exists x, (x = VInt 3 \/ x = VNil) /\
     ({["a.1" := VInt 2]} : gmap string value) = start_modified (VMap {["a" := VSeq [VInt 1; VInt 2]]}) /\
     (∅ : gmap string value) = <[trim_path "a.1" := x]> ∅).
Proof.
  apply (Set_reports (VMap {["a" := VSeq [VInt 1; VInt 2]]}) "a.1" (VInt 3)
           (VMap {["a" := VSeq [VInt 1; VInt 3]]}));
    [discriminate|vm_compute; reflexivity].
Defined.


(** ** The errors [Set] returns *)

Lemma walk_errors keys : forall pre val cur modified added c e,
  walk pre keys val cur modified added = WErr c e ->
  exists n key l,
    keys !! n = Some key /\
    ref_at n keys cur = Some (VSeq l) /\
    set_failure l key (Join (pre ++ take (S n) keys)) e.
Proof.
  induction keys as [|key rest IH]; intros pre val cur modified added c e Hw;
    [done|].
  assert (Hdeeper : forall cur' c',
    walk (pre ++ [key]) rest val cur' modified added = WErr c' e ->
    ref_at 1 (key :: rest) cur = ref_at 0 rest cur' ->
    (forall n, ref_at (S (S n)) (key :: rest) cur = ref_at (S n) rest cur') ->
    exists n key' l,
      (key :: rest) !! n = Some key' /\
      ref_at n (key :: rest) cur = Some (VSeq l) /\
      set_failure l key' (Join (pre ++ take (S n) (key :: rest))) e).
  { intros cur' c' Hc H0 HS.
    destruct (IH _ _ _ _ _ _ _ Hc) as (n & key' & l & Hn & Href & He).
    exists (S n), key', l. split; [done|]. split.
    - destruct n as [|n]; [by rewrite H0|by rewrite HS].
    - change (take (S (S n)) (key :: rest)) with (key :: take (S n) rest).
      by rewrite <- app_cons_assoc. }
  assert (Hrec : forall cur' f,
    rebuild f (walk (pre ++ [key]) rest val cur' modified added) = WErr c e ->
    exists c', walk (pre ++ [key]) rest val cur' modified added = WErr c' e).
  { intros cur' f Hr.
    destruct (walk (pre ++ [key]) rest val cur' modified added) eqn:Hc; try done.
    injection Hr as _ <-. eauto. }
  destruct cur as [| | | | |v|v];
    try (simpl in Hw; eapply Hdeeper; [exact Hw|by destruct rest|done]).
  - destruct rest as [|next rest'].
    { simpl in Hw. destruct (v !! key) as [obj|]; [|done].
      by destruct (deep_equal obj val). }
    destruct (v !! key) as [obj|] eqn:Hl.
    + destruct (resizeArray next obj) as [obj'| |] eqn:Hres;
        [|simpl in Hw; rewrite Hl, Hres in Hw; try done;
          by apply resize_not_err in Hres ..].
      rewrite (walk_map_present _ _ _ _ _ _ _ _ _ _ Hl Hres) in Hw.
      apply Hrec in Hw as [c' Hw].
      eapply Hdeeper; [exact Hw|simpl; by rewrite Hl, Hres|].
      intros n. simpl. by rewrite Hl, Hres.
    + destruct (fresh_child next) as [child| |] eqn:Hchild;
        [|simpl in Hw; pose proof Hchild as Hc'; unfold fresh_child in Hc';
          rewrite Hl, Hc' in Hw; try done; by apply fresh_not_err in Hchild ..].
      rewrite (walk_map_missing _ _ _ _ _ _ _ _ _ Hl Hchild) in Hw.
      apply Hrec in Hw as [c' Hw].
      eapply Hdeeper; [exact Hw|simpl; by rewrite Hl, Hchild|].
      intros n. simpl. by rewrite Hl, Hchild.
  - assert (Hhere : set_failure v key (Join (pre ++ [key])) e ->
      exists n key' l,
        (key :: rest) !! n = Some key' /\
        ref_at n (key :: rest) (VSeq v) = Some (VSeq l) /\
        set_failure l key' (Join (pre ++ take (S n) (key :: rest))) e).
    { intros Hf. exists O, key, v. split; [done|]. split; [done|].
      change (take 1 (key :: rest)) with (key :: take 0 rest). by rewrite take_0. }
    destruct (Atoi key) as [arrIndex|] eqn:Hidx;
      [|apply Hhere; unfold set_failure; rewrite Hidx; simpl in Hw;
        rewrite Hidx in Hw; by injection Hw as _ <-].
    destruct ((-1 <? arrIndex) && (arrIndex <? Z.of_nat (length v))) eqn:Hin.
    + destruct rest as [|next rest'].
      { simpl in Hw. rewrite Hidx, Hin in Hw.
        destruct (default VNil _); try done; by destruct (deep_equal _ val). }
      destruct (resizeArray next (default VNil (v !! Z.to_nat arrIndex)))
        as [child| |] eqn:Hres;
        [|simpl in Hw; rewrite Hidx, Hin, Hres in Hw; try done;
          by apply resize_not_err in Hres ..].
      rewrite (walk_seq_inside _ _ _ _ _ _ _ _ _ _ Hidx Hin Hres) in Hw.
      apply Hrec in Hw as [c' Hw].
      eapply Hdeeper; [exact Hw|simpl; by rewrite Hidx, Hin, Hres|].
      intros n. simpl. by rewrite Hidx, Hin, Hres.
    + apply Hhere. unfold set_failure. rewrite Hidx. simpl in Hw.
      rewrite Hidx, Hin in Hw. injection Hw as _ <-. split; [|done].
      apply andb_false_iff in Hin as [Hlo|Hhi].
      * apply Z.ltb_ge in Hlo. lia.
      * apply Z.ltb_ge in Hhi. lia.
Qed.

(** X8.  [Set] returns an error only at a segment where the loop stands
    on a sequence, and the error tells why that segment does not index
    it: index mismatch when the segment is no integer, index out of
    bounds when it is an integer below 0 or not below the length of the
    sequence.  The error quotes the trimmed path up to and including
    that segment. *)
Theorem Set_errors (root : value) (path : string) (val root' : value)
    (e : error) :
  Config_Set root path val = SetErr root' e ->
  exists n key l,
    Split (trim_path path) !! n = Some key /\
    ref_at n (Split (trim_path path)) (start_root root) = Some (VSeq l) /\
    set_failure l key (Join (take (S n) (Split (trim_path path)))) e.
Proof.
  intros Hset.
  destruct (String.eqb_spec (trim_path path) EmptyString) as [Hp|Hp].
  { by rewrite Config_Set_empty in Hset. }
  rewrite Config_Set_walk in Hset by done.
  destruct (walk _ _ _ _ _ _) eqn:Hw; try done. injection Hset as _ <-.
  by apply walk_errors in Hw.
Qed.

Lemma Set_errors_witness :
  exists n key l,
    Split (trim_path "list.1.x") !! n = Some key /\
    ref_at n (Split (trim_path "list.1.x")) (start_root lists) = Some (VSeq l) /\
    set_failure l key (Join (take (S n) (Split (trim_path "list.1.x"))))
      (ErrIndexMismatch "list.1.x").
Proof.
  apply (Set_errors lists "list.1.x" VNil lists). vm_compute. reflexivity.
Defined.

(** ** What [Set] leaves alone *)

Lemma diverges_nil_r (q : list seg) : ~ diverges q [].
Proof. intros Hd. by destruct q. Qed.

Lemma route_scalar keys cur : is_container cur = false -> route keys cur = [].
Proof. destruct keys; [done|]. by destruct cur. Qed.

Lemma resize_route next rest obj obj' q x :
  resizeArray next obj = Ok obj' ->
  at_addr q obj = Some x ->
  diverges q (route (next :: rest) obj) ->
  at_addr q obj' = Some x /\ diverges q (route (next :: rest) obj').
Proof.
  intros Hres Hq Hd.
  assert (Hsame : obj' = obj ->
    at_addr q obj' = Some x /\ diverges q (route (next :: rest) obj'))
    by by intros ->.
  destruct obj as [| | | | |v|arr];
    try (apply Hsame; unfold resizeArray in Hres; destruct (Atoi next);
         by injection Hres as <-).
  { by apply diverges_nil_r in Hd. }
  clear Hsame.
  apply resize_seq in Hres as [->|(index & arr' & Hidx & Hle & -> & Hlen & Hkeep)];
    [done|].
  cbn [route] in Hd |- *. rewrite Hidx in Hd |- *.
  destruct (Z.leb_spec 0 index); [|lia].
  destruct q as [|s q']; [done|]. simpl in Hq.
  destruct s as [k|j]; [done|]. destruct (arr !! j) as [t|] eqn:Hj; [|done].
  split; [simpl; by rewrite (Hkeep j t Hj)|].
  left. intros [= ->]. apply lookup_lt_Some in Hj. lia.
Qed.

Lemma walk_frame keys : forall pre val cur modified added q x c,
  tree_of (walk pre keys val cur modified added) = Some c ->
  at_addr q cur = Some x ->
  diverges q (route keys cur) ->
  at_addr q c = Some x.
Proof.
  induction keys as [|key rest IH];
    intros pre val cur modified added q x c Ht Hq Hd.
  { by apply diverges_nil_r in Hd. }
  destruct cur as [| | | | |v|v];
    try (rewrite route_scalar in Hd by done; by apply diverges_nil_r in Hd).
  - destruct q as [|s q']; [done|]. simpl in Hq.
    destruct s as [k|j]; [|done]. destruct (v !! k) as [t|] eqn:Hk; [|done].
    assert (Hother : forall y, k <> key ->
      at_addr (Key k :: q') (VMap (<[key := y]> v)) = Some x).
    { intros y Hne. simpl. rewrite lookup_insert_ne by done. by rewrite Hk. }
    assert (Hstay : at_addr (Key k :: q') (VMap v) = Some x)
      by (simpl; by rewrite Hk).
    cbn [route diverges] in Hd.
    destruct rest as [|next rest'].
    + assert (k <> key) as Hne.
      { destruct Hd as [Hne|[_ Hd]]; [congruence|].
        destruct (v !! key); by apply diverges_nil_r in Hd. }
      simpl in Ht. destruct (v !! key) as [obj|].
      * destruct (deep_equal obj val); injection Ht as <-; [done|by apply Hother].
      * injection Ht as <-. by apply Hother.
    + destruct (v !! key) as [obj|] eqn:Hl.
      * destruct (resizeArray next obj) as [obj'| |] eqn:Hres;
          [|simpl in Ht; rewrite Hl, Hres in Ht; try done; by injection Ht as <- ..].
        rewrite (walk_map_present _ _ _ _ _ _ _ _ _ _ Hl Hres) in Ht.
        rewrite tree_of_rebuild in Ht.
        destruct (tree_of (walk _ _ _ _ _ _)) as [c'|] eqn:Hc'; [|done].
        injection Ht as <-.
        destruct Hd as [Hne|[Heq Hd]]; [apply Hother; congruence|].
        injection Heq as ->. rewrite Hl in Hk. injection Hk as <-.
        destruct (resize_route next rest' obj obj' q' x Hres Hq Hd) as [Hq1 Hd1].
        simpl. rewrite lookup_insert_eq. by eapply IH.
      * assert (k <> key) as Hne.
        { destruct Hd as [Hne|[_ Hd]]; [congruence|]. by apply diverges_nil_r in Hd. }
        destruct (fresh_child next) as [child| |] eqn:Hchild;
          [|simpl in Ht; unfold fresh_child in Hchild; rewrite Hl, Hchild in Ht;
            try done; by injection Ht as <- ..].
        rewrite (walk_map_missing _ _ _ _ _ _ _ _ _ Hl Hchild) in Ht.
        rewrite tree_of_rebuild in Ht.
        destruct (tree_of (walk _ _ _ _ _ _)) as [c'|] eqn:Hc'; [|done].
        injection Ht as <-. by apply Hother.
  - cbn [route] in Hd.
    destruct (Atoi key) as [arrIndex|] eqn:Hidx; [|by apply diverges_nil_r in Hd].
    destruct (Z.leb_spec 0 arrIndex) as [Hpos|]; [|by apply diverges_nil_r in Hd].
    destruct q as [|s q']; [done|]. simpl in Hq.
    destruct s as [k|j]; [done|]. destruct (v !! j) as [t|] eqn:Hj; [|done].
    assert (Hother : forall y, j <> Z.to_nat arrIndex ->
      at_addr (Idx j :: q') (VSeq (<[Z.to_nat arrIndex := y]> v)) = Some x).
    { intros y Hne. simpl. rewrite list_lookup_insert_ne by done. by rewrite Hj. }
    assert (Hstay : at_addr (Idx j :: q') (VSeq v) = Some x)
      by (simpl; by rewrite Hj).
    destruct ((-1 <? arrIndex) && (arrIndex <? Z.of_nat (length v))) eqn:Hin;
      [|simpl in Ht; rewrite Hidx, Hin in Ht; by injection Ht as <-].
    cbn [diverges] in Hd.
    destruct rest as [|next rest'].
    + assert (j <> Z.to_nat arrIndex) as Hne.
      { destruct Hd as [Hne|[_ Hd]]; [congruence|].
        destruct (v !! Z.to_nat arrIndex); by apply diverges_nil_r in Hd. }
      simpl in Ht. rewrite Hidx, Hin in Ht.
      destruct (default VNil _); [| destruct (deep_equal _ val) ..];
        injection Ht as <-; first [done | by apply Hother].
    + destruct (resizeArray next (default VNil (v !! Z.to_nat arrIndex)))
        as [child| |] eqn:Hres;
        [|simpl in Ht; rewrite Hidx, Hin, Hres in Ht; try done;
          by injection Ht as <- ..].
      rewrite (walk_seq_inside _ _ _ _ _ _ _ _ _ _ Hidx Hin Hres) in Ht.
      rewrite tree_of_rebuild in Ht.
      destruct (tree_of (walk _ _ _ _ _ _)) as [c'|] eqn:Hc'; [|done].
      injection Ht as <-.
      destruct Hd as [Hne|[Heq Hd]]; [apply Hother; congruence|].
      injection Heq as ->. rewrite Hj in Hd, Hres. simpl in Hres.
      destruct (resize_route next rest' t child q' x Hres Hq Hd) as [Hq1 Hd1].
      simpl. rewrite list_lookup_insert_eq by by apply lookup_lt_Some in Hj.
      by eapply IH.
Qed.

(** X9.  On a root that shares no map or slice between two
    positions, [Set] changes nothing off the path it walks: a value
    that the tree held, before the call, at a position that leaves the
    route of the call is at that position when the call returns,
    normally or with an error.  (Every [value] is such a root; where a
    caller has set one container under two keys, a write under one is
    a write under the other, and nothing is claimed.) *)
Theorem Set_frame (root : value) (path : string) (val root' : value)
    (q : list seg) (x : value) :
  trim_path path <> EmptyString ->
  root_after (Config_Set root path val) = Some root' ->
  at_addr q (start_root root) = Some x ->
  diverges q (route (Split (trim_path path)) (start_root root)) ->
  at_addr q root' = Some x.
Proof.
  intros Hp Hafter Hq Hd.
  rewrite Config_Set_walk, root_after_of_walk in Hafter by done.
  by eapply walk_frame.
Qed.

Lemma Set_frame_witness :
  at_addr [Key "list"; Idx 1; Idx 0]
    (VMap {["list" := VSeq [VInt 9; VSeq [VInt 2; VInt 3]]; "x" := VSeq [VNil]]})
  = Some (VInt 2).
Proof.
  apply (Set_frame lists "list.0" (VInt 9)
           (VMap {["list" := VSeq [VInt 9; VSeq [VInt 2; VInt 3]]; "x" := VSeq [VNil]]})
           [Key "list"; Idx 1; Idx 0] (VInt 2)).
  - discriminate.
  - vm_compute. reflexivity.
  - reflexivity.
  - vm_compute. right. split; [done|]. left. discriminate.
Defined.

Lemma walk_map_siblings pre key rest val (v : gmap string value) modified added c :
  tree_of (walk pre (key :: rest) val (VMap v) modified added) = Some c ->
  exists v', c = VMap v' /\ forall k, k <> key -> v' !! k = v !! k.
Proof.
  intros Ht.
  assert (Hput : forall y, exists v',
    VMap (<[key := y]> v) = VMap v' /\ forall k, k <> key -> v' !! k = v !! k).
  { intros y. eexists. split; [done|]. intros k Hne. by rewrite lookup_insert_ne. }
  simpl in Ht. destruct (v !! key) as [obj|].
  - destruct rest as [|next rest'].
    + destruct (deep_equal obj val); injection Ht as <-; eauto.
    + destruct (resizeArray next obj); try done; [|injection Ht as <-; eauto].
      rewrite tree_of_rebuild in Ht.
      destruct (tree_of _); [|done]. injection Ht as <-. eauto.
  - destruct rest as [|next rest'].
    + injection Ht as <-; eauto.
    + destruct (match Atoi next with Some _ => _ | None => _ end); try done;
        [|injection Ht as <-; eauto].
      rewrite tree_of_rebuild in Ht.
      destruct (tree_of _); [|done]. injection Ht as <-. eauto.
Qed.

(** X10.  On a root mapping that shares no map or slice between two
    positions, [Set] under one key leaves [Get] under every other key
    as it was, values and errors alike: when the first segment that
    [Get] reads differs from the first segment that [Set] walked, [Get]
    on the root after the call returns what it returned on the root the
    walk started from.  (Every [value] is such a root; nothing is
    claimed of a root in which two keys hold one and the same
    container.) *)
Theorem Set_Get_other_key (root : value) (path : string) (val root' : value)
    (key : string) (rest : list string) (v : gmap string value)
    (q k : string) (parts : list string) :
  trim_path path <> EmptyString ->
  Split (trim_path path) = key :: rest ->
  start_root root = VMap v ->
  root_after (Config_Set root path val) = Some root' ->
  normalize_parts q = Ok (k :: parts) ->
  k <> key ->
  Get root' q = Get (VMap v) q.
Proof.
  intros Hp Hkeys Hroot Hafter Hq Hne.
  rewrite Config_Set_walk, root_after_of_walk, Hkeys, Hroot in Hafter by done.
  apply walk_map_siblings in Hafter as (v' & -> & Hsame).
  unfold Get. rewrite Hq. simpl. by rewrite (Hsame k Hne).
Qed.

Lemma Set_Get_other_key_witness :
  Get (VMap {["s" := VInt 1; "x" := VFloat float_42_5; "y" := VFloat float_42]})
    "x.0"
  = Get numbers "x.0".
Proof.
  apply (Set_Get_other_key numbers "s" (VInt 1)
           (VMap {["s" := VInt 1; "x" := VFloat float_42_5; "y" := VFloat float_42]})
           "s" []
           {["s" := VString "42"; "x" := VFloat float_42_5; "y" := VFloat float_42]}
           "x.0" "x" ["0"]);
    [discriminate|reflexivity|reflexivity|vm_compute; reflexivity|reflexivity
    |discriminate].
Defined.

(** ** Text and back *)

Lemma digit_cases (d : Z) :
  is_digit d ->
  d = 0 \/ d = 1 \/ d = 2 \/ d = 3 \/ d = 4 \/ d = 5 \/ d = 6 \/ d = 7 \/
  d = 8 \/ d = 9.
Proof. unfold is_digit. lia. Qed.

Lemma digit_of_char (d : Z) : is_digit d -> digit_of (digit_char d) = Some d.
Proof.
  intros Hd. apply digit_cases in Hd.
  repeat (destruct Hd as [->|Hd]; [reflexivity|]). by subst d.
Qed.

Lemma digit_char_no_sign (d : Z) :
  is_digit d ->
  Ascii.eqb (digit_char d) "-" = false /\ Ascii.eqb (digit_char d) "+" = false.
Proof.
  intros Hd. apply digit_cases in Hd.
  repeat (destruct Hd as [->|Hd]; [by split|]). by subst d.
Qed.

Lemma parse_digits_string (ds : list Z) : forall acc,
  Forall is_digit ds ->
  parse_digits acc (digits_string ds) = Some (foldl (fun a d => 10 * a + d) acc ds).
Proof.
  induction ds as [|d ds IH]; intros acc Hds; [done|].
  apply Forall_cons in Hds as [Hd Hds]. simpl.
  rewrite (digit_of_char d Hd). by apply IH.
Qed.

Lemma digits_fuel_spec (fuel : nat) : forall n acc,
  0 <= n < 10 ^ Z.of_nat (S fuel) ->
  Forall is_digit acc ->
  Forall is_digit (digits_fuel fuel n acc) /\
  (exists d ds, digits_fuel fuel n acc = d :: ds) /\
  foldl (fun a d => 10 * a + d) 0 (digits_fuel fuel n acc)
  = foldl (fun a d => 10 * a + d) n acc.
Proof.
  induction fuel as [|fuel IH]; intros n acc Hn Hacc.
  - simpl. change (10 ^ Z.of_nat 1) with 10 in Hn.
    split; [apply Forall_cons; split; [unfold is_digit; lia|done]|].
    split; [eauto|done].
  - cbn [digits_fuel]. destruct (Z.ltb_spec n 10) as [Hlt|Hge].
    + split; [apply Forall_cons; split; [unfold is_digit; lia|done]|].
      split; [eauto|done].
    + assert (Hpow : 10 ^ Z.of_nat (S (S fuel)) = 10 * 10 ^ Z.of_nat (S fuel)).
      { rewrite (Nat2Z.inj_succ (S fuel)), Z.pow_succ_r; lia. }
      pose proof (Z.mod_pos_bound n 10 ltac:(lia)) as Hmod.
      pose proof (Z.div_mod n 10 ltac:(lia)) as Hdm.
      destruct (IH (n / 10) (n mod 10 :: acc)) as (Hall & Hne & Hval).
      * split; [apply Z.div_pos; lia|].
        apply Z.div_lt_upper_bound; lia.
      * apply Forall_cons. split; [unfold is_digit; lia|done].
      * split; [done|]. split; [done|]. rewrite Hval. cbn [foldl].
        replace (10 * (n `div` 10) + n `mod` 10) with n by lia.
        done.
Qed.

Lemma digits_of_spec (n : Z) :
  0 <= n ->
  Forall is_digit (digits_of n) /\
  (exists d ds, digits_of n = d :: ds) /\
  foldl (fun a d => 10 * a + d) 0 (digits_of n) = n.
Proof.
  intros Hn. unfold digits_of.
  destruct (digits_fuel_spec (Z.to_nat (Z.log2 n)) n []) as (Hall & Hne & Hval);
    [|done|].
  - split; [done|]. destruct (Z.eq_dec n 0) as [->|Hnz]; [done|].
    pose proof (Z.log2_spec n ltac:(lia)) as [_ Hup].
    pose proof (Z.log2_nonneg n).
    rewrite Nat2Z.inj_succ, Z2Nat.id by done.
    eapply Z.lt_le_trans; [exact Hup|].
    apply Z.pow_le_mono_l. lia.
  - split; [done|]. split; [done|]. by rewrite Hval.
Qed.

Lemma Atoi_Sprint_int (z : Z) :
  int_min <= z <= int_max -> Atoi (Sprint_int z) = Some z.
Proof.
  intros Hz. unfold Sprint_int. destruct (Z.ltb_spec z 0) as [Hneg|Hpos].
  - destruct (digits_of_spec (- z)) as (Hall & (d & ds & Hds) & Hval); [lia|].
    rewrite Hds in *. apply Forall_cons in Hall as [Hd Hall].
    unfold Atoi. change (Ascii.eqb "-" "-") with true. cbv iota beta.
    cbn [digits_string fold_right]. 
    change (String (digit_char d) (fold_right (fun d s => String (digit_char d) s) EmptyString ds))
      with (digits_string (d :: ds)).
    rewrite parse_digits_string by (by apply Forall_cons). rewrite Hval.
    rewrite Z.opp_involutive.
    destruct (Z.leb_spec int_min z); [|lia]. destruct (Z.leb_spec z int_max); [|lia].
    done.
  - destruct (digits_of_spec z) as (Hall & (d & ds & Hds) & Hval); [lia|].
    rewrite Hds in *. apply Forall_cons in Hall as [Hd Hall].
    unfold Atoi. cbn [digits_string fold_right].
    destruct (digit_char_no_sign d Hd) as [-> ->].
    change (String (digit_char d) (fold_right (fun d s => String (digit_char d) s) EmptyString ds))
      with (digits_string (d :: ds)).
    rewrite parse_digits_string by (by apply Forall_cons). rewrite Hval.
    destruct (Z.leb_spec int_min z); [|lia]. destruct (Z.leb_spec z int_max); [|lia].
    done.
Qed.

(** X11.  What [String] prints for an integer or a boolean, the
    accessor of that type reads back: [Int] on the stored text of an
    [int] returns the [int], and [Bool] on the stored text of a [bool]
    returns the [bool]. *)
Theorem String_read_back (root : value) (path : string) (n : value)
    (Hget : Get root path = Ok n) :
  (forall z, n = VInt z -> int_min <= z <= int_max ->
     Config_String root path = Ok (Sprint_int z) /\
     forall root' path',
       Get root' path' = Ok (VString (Sprint_int z)) ->
       Config_Int root' path' = Ok z) /\
  (forall b, n = VBool b ->
     Config_String root path = Ok (Sprint_bool b) /\
     forall root' path',
       Get root' path' = Ok (VString (Sprint_bool b)) ->
       Config_Bool root' path' = Ok b).
Proof.
  split.
  - intros z -> Hz. unfold Config_String, Config_Int. rewrite Hget.
    split; [done|]. intros root' path' ->. unfold ParseInt.
    by rewrite (Atoi_Sprint_int z Hz).
  - intros b ->. unfold Config_String, Config_Bool. rewrite Hget.
    split; [done|]. intros root' path' ->. by destruct b.
Qed.

Lemma String_read_back_witness :
  Config_String (VSeq [VInt (-120)]) "0" = Ok "-120" /\
  Config_Int (VMap {["n" := VString "-120"]}) "n" = Ok (-120).
Proof.
  destruct (proj1 (String_read_back (VSeq [VInt (-120)]) "0" (VInt (-120)) eq_refl)
              (-120) eq_refl) as [Hs Hi].
  - unfold int_min, int_max. lia.
  - split; [exact Hs|]. apply Hi. reflexivity.
Defined.

(** ** The normalizer on lists and on mappings with string keys *)

Lemma range_list_spec (items : list raw) : forall key node,
  length node = (key + length items)%nat ->
  (forall l, Forall2 (fun r x => normalizeValue r = Ok x) items l ->
     range_list normalizeValue items key node = Ok (VSeq (take key node ++ l))) /\
  (Exists (fun r => forall x, normalizeValue r <> Ok x) items ->
     range_list normalizeValue items key node = Err ErrUnsupportedListItem).
Proof.
  induction items as [|r items IH]; intros key node Hlen.
  { split.
    - intros l Hl. apply Forall2_nil_inv_l in Hl as ->. simpl in *.
      rewrite app_nil_r, take_ge; [done|lia].
    - intros Hex. by apply Exists_nil in Hex. }
  simpl in Hlen.
  assert (Hkey : (key < length node)%nat) by lia.
  split.
  - intros l Hl. apply Forall2_cons_inv_l in Hl as (x & l' & Hx & Hl' & ->).
    simpl. rewrite Hx.
    destruct (IH (S key) (<[key := x]> node)) as [Hok _];
      [rewrite length_insert; lia|].
    rewrite (Hok l' Hl').
    rewrite (take_S_r _ _ x) by by apply list_lookup_insert_eq.
    rewrite take_insert_ge by done. by rewrite <- app_assoc.
  - intros Hex. simpl. pose proof (normalizeValue_no_panic r) as Hnp.
    destruct (normalizeValue r) as [x| |] eqn:Hr; [|done|done].
    apply Exists_cons in Hex as [Hbad|Hex]; [by destruct (Hbad x)|].
    destruct (IH (S key) (<[key := x]> node)) as [_ Herr];
      [rewrite length_insert; lia|].
    by apply Herr.
Qed.

(** X12.  On a list the normalizer keeps length and order: it returns
    the sequence of the normalized items when every item normalizes,
    and the list-item error when some item does not. *)
Theorem normalize_list (items : list raw) :
  (forall l, Forall2 (fun r x => normalizeValue r = Ok x) items l ->
     normalizeValue (RList items) = Ok (VSeq l)) /\
  (Exists (fun r => forall x, normalizeValue r <> Ok x) items ->
     normalizeValue (RList items) = Err ErrUnsupportedListItem).
Proof.
  destruct (range_list_spec items O (replicate (length items) VNil)) as [Hok Herr];
    [by rewrite length_replicate|].
  split; [|exact Herr]. intros l Hl. simpl. by rewrite (Hok l Hl).
Qed.

Lemma normalize_list_witness :
  normalizeValue (RList [RInt 1; RList [RNil]; RString "a"])
  = Ok (VSeq [VInt 1; VSeq [VNil]; VString "a"]).
Proof.
  apply (proj1 (normalize_list [RInt 1; RList [RNil]; RString "a"])).
  repeat constructor.
Defined.

Lemma range_str_bad (entries : list (string * raw)) (node : gmap string value) :
  Exists (fun kv => forall x, normalizeValue kv.2 <> Ok x) entries ->
  range_str normalizeValue entries node = Err ErrUnsupportedMapValue.
Proof.
  revert node. induction entries as [|[k v] entries IH]; intros node Hex.
  - by apply Exists_nil in Hex.
  - simpl. pose proof (normalizeValue_no_panic v) as Hnp.
    destruct (normalizeValue v) as [item| |] eqn:Hv; [|done|done].
    apply IH. apply Exists_cons in Hex as [Hbad|Hex]; [|done].
    by destruct (Hbad item).
Qed.

Lemma range_str_good (entries : list (string * raw)) (node : gmap string value) :
  Forall (fun kv => exists x, normalizeValue kv.2 = Ok x) entries ->
  exists m, range_str normalizeValue entries node = Ok (VMap m) /\
    (forall key, key ∉ entries.*1 -> m !! key = node !! key) /\
    (forall key item, m !! key = Some item ->
       node !! key = Some item \/
       exists v, (key, v) ∈ entries /\ normalizeValue v = Ok item) /\
    (NoDup entries.*1 ->
     forall key v item, (key, v) ∈ entries ->
       normalizeValue v = Ok item -> m !! key = Some item).
Proof.
  revert node. induction entries as [|[key0 v] entries IH]; intros node Hall.
  - exists node. repeat split; auto. intros _ key v item Hin. by apply elem_of_nil in Hin.
  - apply Forall_cons in Hall as [[item Hv] Hall]. simpl in Hv.
    destruct (IH (<[key0 := item]> node) Hall) as (m & Hrun & Hkeep & Hfrom & Hto).
    exists m. simpl. rewrite Hv. split; [done|]. split; [|split].
    + intros key Hnot. rewrite ?fmap_cons in Hnot. apply not_elem_of_cons in Hnot.
      destruct Hnot as [Hne Hnot]. rewrite (Hkeep key Hnot).
      by apply lookup_insert_ne.
    + intros key it Hm. destruct (Hfrom key it Hm) as [Hnode|(w & Hin & Hw)].
      * destruct (decide (key0 = key)) as [->|Hne].
        -- rewrite lookup_insert_eq in Hnode. injection Hnode as <-.
           right. exists v. split; [left|done].
        -- rewrite lookup_insert_ne in Hnode by done. by left.
      * right. exists w. split; [by right|done].
    + intros Hnd key w it Hin Hw. rewrite ?fmap_cons in Hnd.
      apply NoDup_cons in Hnd as [Hfresh Hnd].
      apply elem_of_cons in Hin as [Heq|Hin].
      * injection Heq as -> ->. rewrite (Hkeep key0 Hfresh), lookup_insert_eq.
        congruence.
      * by apply (Hto Hnd key w it).
Qed.

(** X13.  On a mapping with string keys the normalizer returns the
    map-value error when some value does not normalize; when every
    value normalizes it returns a mapping that binds each key to the
    normalized value of its entry and binds nothing else. *)
Theorem normalize_string_map (entries : list (string * raw)) :
  (Exists (fun kv => forall x, normalizeValue kv.2 <> Ok x) entries ->
   normalizeValue (RMapStr entries) = Err ErrUnsupportedMapValue) /\
  (Forall (fun kv => exists x, normalizeValue kv.2 = Ok x) entries ->
   NoDup entries.*1 ->
   exists m, normalizeValue (RMapStr entries) = Ok (VMap m) /\
     forall key item,
       m !! key = Some item <->
       exists v, (key, v) ∈ entries /\ normalizeValue v = Ok item).
Proof.
  split; [apply range_str_bad|]. intros Hall Hnd.
  destruct (range_str_good entries ∅ Hall) as (m & Hrun & _ & Hfrom & Hto).
  exists m. split; [exact Hrun|]. intros key item. split.
  - intros Hm. destruct (Hfrom key item Hm) as [Hempty|Hin]; [|done].
    by rewrite lookup_empty in Hempty.
  - intros (v & Hin & Hv). by apply (Hto Hnd key v item).
Qed.

Lemma normalize_string_map_witness :
  normalizeValue (RMapStr [("a", RInt 1); ("b", ROther)])
  = Err ErrUnsupportedMapValue.
Proof.
  apply (proj1 (normalize_string_map [("a", RInt 1); ("b", ROther)])).
  apply Exists_cons. right. apply Exists_cons. left. intros x. discriminate.
Defined.

(** ** The normalizer on a tree that is normal already *)

Lemma vsize_map_elem (m : gmap string value) (k : string) (x : value) :
  m !! k = Some x -> (vsize x < vsize (VMap m))%nat.
Proof.
  intros Hk. simpl.
  rewrite (map_fold_delete_L _ _ k x m); [lia| |done].
  intros. lia.
Qed.

Lemma vsize_seq_elem (l : list value) (x : value) :
  x ∈ l -> (vsize x < vsize (VSeq l))%nat.
Proof.
  intros Hin. simpl. induction Hin as [x l|x y l _ IH]; simpl; lia.
Qed.

Lemma to_raw_map (m : gmap string value) :
  to_raw (VMap m) = RMapStr ((fun kx => (kx.1, to_raw kx.2)) <$> map_to_list m).
Proof.
  simpl. f_equal. rewrite map_fold_foldr.
  induction (map_to_list m) as [|[k x] l IH]; [done|]. simpl. by rewrite IH.
Qed.

Lemma normalize_to_raw_size (n : nat) : forall v,
  (vsize v < n)%nat -> normalizeValue (to_raw v) = Ok v.
Proof.
  induction n as [|n IH]; intros v Hn; [lia|].
  destruct v as [| | | | |m|l]; try done.
  - rewrite to_raw_map.
    set (entries := (fun kx : string * value => (kx.1, to_raw kx.2)) <$> map_to_list m).
    assert (Hin : forall key r, (key, r) ∈ entries <->
              exists x, r = to_raw x /\ m !! key = Some x).
    { intros key r. unfold entries. rewrite list_elem_of_fmap. split.
      - intros ([k x] & [= -> ->] & Hkx). apply elem_of_map_to_list in Hkx. eauto.
      - intros (x & -> & Hx). exists (key, x). split; [done|].
        by apply elem_of_map_to_list. }
    assert (Hkeys : entries.*1 = (map_to_list m).*1).
    { unfold entries. rewrite <- list_fmap_compose. by apply list_fmap_ext. }
    destruct (range_str_good entries ∅) as (m' & Hrun & _ & Hfrom & Hto).
    { apply Forall_forall. intros [key r] Hkr. apply Hin in Hkr as (x & -> & Hx).
      exists x. apply IH. apply vsize_map_elem in Hx. lia. }
    simpl. rewrite Hrun. do 2 f_equal. apply map_eq. intros key.
    destruct (m !! key) as [x|] eqn:Hx.
    + apply (Hto ltac:(rewrite Hkeys; apply NoDup_fst_map_to_list) key (to_raw x) x).
      * apply Hin. eauto.
      * apply IH. apply vsize_map_elem in Hx. lia.
    + destruct (m' !! key) as [item|] eqn:Hitem; [|done].
      destruct (Hfrom key item Hitem) as [Hempty|(r & Hkr & _)].
      * by rewrite lookup_empty in Hempty.
      * apply Hin in Hkr as (x & _ & Hx'). congruence.
  - apply (proj1 (normalize_list (map to_raw l))).
    apply Forall2_fmap_l, Forall2_same_length_lookup. split; [done|].
    intros i x y Hx Hy. rewrite Hx in Hy. injection Hy as <-.
    apply IH. apply list_elem_of_lookup_2 in Hx. apply vsize_seq_elem in Hx. lia.
Qed.

(** X14.  The normalizer returns a tree that is normal already as it
    is: on mappings with string keys, lists and scalars, nested to any
    depth, it never fails and changes nothing. *)
Theorem normalize_to_raw (v : value) : normalizeValue (to_raw v) = Ok v.
Proof. apply (normalize_to_raw_size (S (vsize v))). lia. Qed.

(** ** What [Set] creates *)

Lemma walk_creates (rest : list string) : forall key pre val
    (v modified added : gmap string value),
  v !! key = None ->
  Forall (fun k => Atoi k = None) rest ->
  exists c,
    walk pre (key :: rest) val (VMap v) modified added
      = WOk c modified (<[Join (pre ++ key :: rest) := val]> added) /\
    (forall pre', get_walk pre' (key :: rest) c = Ok val) /\
    (rest <> [] -> forall pre', exists m, get_walk pre' [key] c = Ok (VMap m)).
Proof.
  induction rest as [|next rest IH]; intros key pre val v modified added Hk Hrest.
  - exists (VMap (<[key := val]> v)). simpl. rewrite Hk. split; [done|].
    split; [|done]. intros pre'. by rewrite lookup_insert_eq.
  - apply Forall_cons in Hrest as [Hnext Hrest].
    assert (Hchild : fresh_child next = Ok (VMap ∅))
      by (unfold fresh_child; by rewrite Hnext).
    destruct (IH next (pre ++ [key]) val ∅ modified added (lookup_empty _) Hrest)
      as (c' & Hw & Hg & _).
    exists (VMap (<[key := c']> v)).
    rewrite (walk_map_missing _ _ _ _ _ _ _ _ _ Hk Hchild), Hw.
    rewrite app_cons_assoc. split; [done|]. split.
    + intros pre'. remember (next :: rest) as parts. simpl.
      rewrite lookup_insert_eq. apply Hg.
    + intros _ pre'. apply walk_shape in Hw as [m ->]. exists m. simpl.
      by rewrite lookup_insert_eq.
Qed.

(** X15.  Under a key that a root mapping lacks, [Set] creates nested
    mappings for a path whose further segments are no numbers: the
    call returns normally, reports the value in [added] under the
    trimmed path and nothing new in [modified], [Get] on the same
    segments then returns the value, and, when the path has further
    segments, [Map] on the first segment returns a mapping. *)
Theorem Set_creates_maps (root : value) (path : string) (val : value)
    (key : string) (rest : list string) (v : gmap string value) :
  trim_path path <> EmptyString ->
  Split (trim_path path) = key :: rest ->
  start_root root = VMap v ->
  v !! key = None ->
  Forall (fun k => Atoi k = None) rest ->
  exists root',
    Config_Set root path val
      = SetOk root' (start_modified root) (<[trim_path path := val]> ∅) /\
    (forall q, normalize_parts q = Ok (key :: rest) -> Get root' q = Ok val) /\
    (rest <> [] ->
     forall q, normalize_parts q = Ok [key] ->
       exists m, Config_Map root' q = Ok m).
Proof.
  intros Hp Hkeys Hroot Hk Hrest.
  destruct (walk_creates rest key [] val v (start_modified root) ∅ Hk Hrest)
    as (c & Hw & Hg & Hm).
  exists c. rewrite Config_Set_walk, Hkeys, Hroot, Hw by done.
  change ([] ++ key :: rest) with (key :: rest).
  rewrite <- Hkeys, Join_Split. split; [done|]. split.
  - intros q Hq. unfold Get. rewrite Hq, Hkeys. apply Hg.
  - intros Hne q Hq.
    destruct (Hm Hne []) as [m Hget]. exists m.
    unfold Config_Map, Get. by rewrite Hq, Hget.
Qed.

Lemma Set_creates_maps_witness :
  exists root',
    Config_Set VNil "x.y" (VBool true)
      = SetOk root' (start_modified VNil) (<[trim_path "x.y" := VBool true]> ∅) /\
    (forall q, normalize_parts q = Ok ["x"; "y"] -> Get root' q = Ok (VBool true)) /\
    (["y"] <> [] ->
     forall q, normalize_parts q = Ok ["x"] -> exists m, Config_Map root' q = Ok m).
Proof.
  apply (Set_creates_maps VNil "x.y" (VBool true) "x" ["y"] ∅);
    [discriminate|reflexivity|reflexivity|reflexivity|].
  repeat constructor.
Defined.



(** ** Where [Get] fails *)

Lemma get_walk_errors parts : forall pre cfg e,
  get_walk pre parts cfg = Err e ->
  exists walked part rest c,
    parts = walked ++ part :: rest /\
    get_walk pre walked cfg = Ok c /\
    get_failure c part (Join (pre ++ walked ++ [part])) e.
Proof.
  induction parts as [|part rest IH]; intros pre cfg e Hg; [done|].
  assert (Hhere : get_failure cfg part (Join (pre ++ [part])) e ->
    exists walked part' rest' c,
      part :: rest = walked ++ part' :: rest' /\
      get_walk pre walked cfg = Ok c /\
      get_failure c part' (Join (pre ++ walked ++ [part'])) e).
  { intros Hf. by exists [], part, rest, cfg. }
  assert (Hdeeper : forall x,
    get_walk pre [part] cfg = Ok x ->
    get_walk (pre ++ [part]) rest x = Err e ->
    exists walked part' rest' c,
      part :: rest = walked ++ part' :: rest' /\
      get_walk pre walked cfg = Ok c /\
      get_failure c part' (Join (pre ++ walked ++ [part'])) e).
  { intros x Hx Hrest.
    destruct (IH _ _ _ Hrest) as (walked & part' & rest' & c & -> & Hc & Hf).
    exists (part :: walked), part', rest', c. split; [done|]. split.
    - change (part :: walked) with ([part] ++ walked).
      apply get_walk_app. eauto.
    - by rewrite <- app_assoc in Hf. }
  simpl in Hg. destruct cfg as [| | | | |m|l];
    try (apply Hhere; by injection Hg as <-).
  - destruct (m !! part) as [x|] eqn:Hm.
    + apply (Hdeeper x); [simpl; by rewrite Hm|done].
    + apply Hhere. by injection Hg as <-.
  - unfold ParseInt in Hg. destruct (Atoi part) as [i|] eqn:Hi.
    + destruct (Z.ltb_spec i (Z.of_nat (length l))) as [Hlt|Hge].
      * destruct (slice_index l i) as [x| |] eqn:Hs; try done.
        -- apply (Hdeeper x); [|done]. simpl. unfold ParseInt. rewrite Hi, Hs.
           by destruct (Z.ltb_spec i (Z.of_nat (length l))); [|lia].
        -- by apply slice_index_not_err in Hs.
      * apply Hhere. injection Hg as <-. left. eauto.
    + apply Hhere. injection Hg as <-. by right.
Qed.

(** X17.  [Get] fails on an invalid path, or at the first segment it
    cannot follow: the segments before it lead to a value, and the
    error tells what that value is (a sequence and an index at or
    beyond its length, which the error cites, or no index; a mapping
    without the key; no container), quoting the path up to the
    segment. *)
Theorem Get_errors (cfg : value) (path : string) (e : error) :
  Get cfg path = Err e ->
  e = ErrInvalidPath path \/
  exists walked part rest c,
    normalize_parts path = Ok (walked ++ part :: rest) /\
    get_walk [] walked cfg = Ok c /\
    get_failure c part (Join (walked ++ [part])) e.
Proof.
  unfold Get. intros Hg.
  destruct (normalize_parts path) as [parts| |] eqn:Hparts; try done.
  - right. apply get_walk_errors in Hg as (walked & part & rest & c & -> & Hc & Hf).
    by exists walked, part, rest, c.
  - left. unfold normalize_parts in Hparts.
    destruct (Split path); [done|]. destruct (existsb _ _); [|by destruct (_ =? _)%string].
    injection Hparts as <-. by injection Hg as <-.
Qed.

Lemma Get_errors_witness :
  ErrIndexOutOfRange "5" 3 = ErrInvalidPath "5" \/
  exists walked part rest c,
    normalize_parts "5" = Ok (walked ++ part :: rest) /\
    get_walk [] walked (VSeq [VInt 1; VInt 2; VInt 3]) = Ok c /\
    get_failure c part (Join (walked ++ [part])) (ErrIndexOutOfRange "5" 3).
Proof.
  apply (Get_errors (VSeq [VInt 1; VInt 2; VInt 3]) "5"). reflexivity.
Defined.

(** ** What [modified] holds *)

Lemma fresh_child_fresh next child : fresh_child next = Ok child -> fresh child.
Proof.
  unfold fresh_child, makeArray, make_slice, makeMap.
  destruct (Atoi next); [|intros [= <-]; right; by left].
  destruct (_ <? 0); [done|]. intros [= <-]. right; right; eauto.
Qed.

Lemma resize_nil_fresh next child : resizeArray next VNil = Ok child -> fresh child.
Proof.
  unfold resizeArray, make_slice.
  destruct (Atoi next); [|intros [= <-]; by left].
  destruct (_ <? 0); [done|]. intros [= <-]. right; right; eauto.
Qed.

(** In a fresh value the loop finds nothing to modify. *)
Lemma walk_fresh keys : forall pre val cur modified added c modified' added',
  fresh cur ->
  walk pre keys val cur modified added = WOk c modified' added' ->
  modified' = modified.
Proof.
  induction keys as [|key rest IH];
    intros pre val cur modified added c modified' added' Hf Hw.
  { simpl in Hw. by injection Hw as _ <- _. }
  destruct Hf as [->|[->|[n ->]]].
  - rewrite walk_skips in Hw by done. by injection Hw as _ <- _.
  - simpl in Hw. rewrite lookup_empty in Hw.
    destruct rest as [|next rest']; [by injection Hw as _ <- _|].
    destruct (match Atoi next with Some _ => _ | None => _ end) as [child| |] eqn:Hc;
      try done.
    apply rebuild_ok in Hw as (c' & Hw & _).
    eapply IH; [|exact Hw]. by apply (fresh_child_fresh next).
  - simpl in Hw. destruct (Atoi key) as [arrIndex|]; [|done].
    destruct (_ && _); [|done].
    assert (Hslot : default VNil (replicate n VNil !! Z.to_nat arrIndex) = VNil).
    { destruct (replicate n VNil !! Z.to_nat arrIndex) as [x|] eqn:Hx; [|done].
      by apply lookup_replicate_1 in Hx as [-> _]. }
    rewrite Hslot in Hw.
    destruct rest as [|next rest']; [by injection Hw as _ <- _|].
    destruct (resizeArray next VNil) as [child| |] eqn:Hc; try done.
    apply rebuild_ok in Hw as (c' & Hw & _).
    eapply IH; [|exact Hw]. by apply (resize_nil_fresh next).
Qed.

(** [resizeArray] leaves the value as it is, or the loop goes on into a
    slot that is new and finds nothing to modify. *)
Lemma walk_resized next obj obj' :
  resizeArray next obj = Ok obj' ->
  obj' = obj \/
  forall pre rest val modified added c modified' added',
    walk pre (next :: rest) val obj' modified added = WOk c modified' added' ->
    modified' = modified.
Proof.
  intros Hres.
  destruct obj as [| | | | |v|arr];
    try (left; unfold resizeArray in Hres; destruct (Atoi next);
         by injection Hres as <-).
  { right. intros pre rest val modified added c modified' added' Hw.
    eapply walk_fresh; [|exact Hw]. by apply (resize_nil_fresh next). }
  unfold resizeArray in Hres.
  destruct (Atoi next) as [index|] eqn:Hidx; [|left; by injection Hres as <-].
  destruct (Z.leb_spec (Z.of_nat (length arr)) index) as [Hle|];
    [|left; by injection Hres as <-].
  unfold make_slice in Hres. destruct (_ <? 0); [done|]. injection Hres as <-.
  right. intros pre rest val modified added c modified' added' Hw.
  simpl in Hw. rewrite Hidx in Hw. destruct (_ && _) eqn:Hin; [|done].
  apply andb_prop in Hin as [Hpos _]. apply Z.ltb_lt in Hpos.
  match type of Hw with context [default VNil ?o] =>
    assert (Hslot : default VNil o = VNil) end.
  { unfold copy_into. rewrite lookup_app_r by (rewrite length_take; lia).
    rewrite lookup_drop.
    match goal with |- default VNil ?o = _ => destruct o as [x|] eqn:Hx end;
      [|done]. by apply lookup_replicate_1 in Hx as [-> _]. }
  rewrite Hslot in Hw.
  destruct rest as [|next' rest']; [by injection Hw as _ <- _|].
  destruct (resizeArray next' VNil) as [child| |] eqn:Hc; try done.
  apply rebuild_ok in Hw as (c' & Hw & _).
  eapply walk_fresh; [|exact Hw]. by apply (resize_nil_fresh next').
Qed.

Lemma walk_modified_old keys : forall pre pre' val cur modified added
    c modified' added' old,
  walk pre keys val cur modified added = WOk c modified' added' ->
  modified !! Join (pre ++ keys) = None ->
  modified' !! Join (pre ++ keys) = Some old ->
  get_walk pre' keys cur = Ok old.
Proof.
  induction keys as [|key rest IH];
    intros pre pre' val cur modified added c modified' added' old Hw Hnone Hsome.
  { simpl in Hw. injection Hw as _ <- _. congruence. }
  assert (Hsame : modified' = modified -> get_walk pre' (key :: rest) cur = Ok old).
  { intros ->. congruence. }
  destruct cur as [| | | | |v|v];
    try (apply Hsame; rewrite walk_skips in Hw by done; by injection Hw as _ <- _).
  - destruct rest as [|next rest'].
    + simpl in Hw. simpl. destruct (v !! key) as [obj|].
      * destruct (deep_equal obj val); injection Hw as <- <- <-; [congruence|].
        rewrite lookup_insert_eq in Hsome. by injection Hsome as <-.
      * injection Hw as <- <- <-. congruence.
    + destruct (v !! key) as [obj|] eqn:Hl.
      * destruct (resizeArray next obj) as [obj'| |] eqn:Hres;
          [|simpl in Hw; by rewrite Hl, Hres in Hw ..].
        rewrite (walk_map_present _ _ _ _ _ _ _ _ _ _ Hl Hres) in Hw.
        apply rebuild_ok in Hw as (c' & Hw & _).
        destruct (walk_resized next obj obj' Hres) as [->|Hnew];
          [|apply Hsame; by eapply Hnew].
        remember (next :: rest') as parts. simpl. rewrite Hl.
        eapply IH; [exact Hw|by rewrite app_cons_assoc ..].
      * destruct (fresh_child next) as [child| |] eqn:Hchild;
          [|simpl in Hw; unfold fresh_child in Hchild; by rewrite Hl, Hchild in Hw ..].
        rewrite (walk_map_missing _ _ _ _ _ _ _ _ _ Hl Hchild) in Hw.
        apply rebuild_ok in Hw as (c' & Hw & _).
        apply Hsame. eapply walk_fresh; [|exact Hw].
        by apply (fresh_child_fresh next).
  - destruct (Atoi key) as [arrIndex|] eqn:Hidx;
      [|by simpl in Hw; rewrite Hidx in Hw].
    destruct ((-1 <? arrIndex) && (arrIndex <? Z.of_nat (length v))) eqn:Hin;
      [|by simpl in Hw; rewrite Hidx, Hin in Hw].
    assert (Hslot : exists x, v !! Z.to_nat arrIndex = Some x /\
              slice_index v arrIndex = Ok x /\
              (arrIndex <? Z.of_nat (length v)) = true).
    { apply andb_prop in Hin as [H1 H2]. pose proof H2 as H2'.
      apply Z.ltb_lt in H1, H2.
      destruct (lookup_lt_is_Some_2 v (Z.to_nat arrIndex)) as [x Hx]; [lia|].
      exists x. split; [done|]. split; [|done]. unfold slice_index.
      destruct (Z.leb_spec 0 arrIndex); [|lia]. rewrite H2'. simpl. by rewrite Hx. }
    destruct Hslot as (x & Hx & Hsl & Hlt).
    assert (Hread : forall parts,
      get_walk pre' (key :: parts) (VSeq v) = get_walk (pre' ++ [key]) parts x).
    { intros parts. simpl. unfold ParseInt. by rewrite Hidx, Hlt, Hsl. }
    rewrite Hread.
    destruct rest as [|next rest'].
    + simpl in Hw. rewrite Hidx, Hin, Hx in Hw. simpl in Hw. simpl.
      destruct x; try (injection Hw as <- <- <-; congruence);
        (destruct (deep_equal _ val); injection Hw as <- <- <-; [congruence|];
         rewrite lookup_insert_eq in Hsome; by injection Hsome as <-).
    + destruct (resizeArray next (default VNil (v !! Z.to_nat arrIndex)))
        as [child| |] eqn:Hres;
        [|simpl in Hw; by rewrite Hidx, Hin, Hres in Hw ..].
      rewrite (walk_seq_inside _ _ _ _ _ _ _ _ _ _ Hidx Hin Hres) in Hw.
      apply rebuild_ok in Hw as (c' & Hw & _).
      rewrite Hx in Hres. simpl in Hres.
      destruct (walk_resized next x child Hres) as [->|Hnew].
      * eapply IH; [exact Hw|by rewrite app_cons_assoc ..].
      * exfalso. rewrite (Hnew _ _ _ _ _ _ _ _ Hw) in Hsome. congruence.
Qed.

(** X18.  What [Set] reports in [modified] under the path is what
    [Get] found there before the call: when a call on a path that is
    not empty returns normally with an entry for the trimmed path in
    [modified], [Get] on the segments [Set] walked returned that entry
    on the root before the call. *)
Theorem Set_modified_is_old (root : value) (path : string) (val root' : value)
    (modified added : gmap string value) (old : value) (q : string) :
  trim_path path <> EmptyString ->
  Config_Set root path val = SetOk root' modified added ->
  modified !! trim_path path = Some old ->
  normalize_parts q = Ok (Split (trim_path path)) ->
  Get (start_root root) q = Ok old.
Proof.
  intros Hp Hset Hold Hq. rewrite Config_Set_walk in Hset by done.
  destruct (walk _ _ _ _ _ _) as [c m a| |] eqn:Hw; try done.
  injection Hset as -> -> ->. unfold Get. rewrite Hq.
  eapply walk_modified_old; [exact Hw| |]; simpl app; rewrite Join_Split; [|done].
  destruct root; try done; simpl; by rewrite lookup_insert_ne.
Qed.

Lemma Set_modified_is_old_witness :
  Get (start_root lists) "list.1.0" = Ok (VInt 2).
Proof.
  apply (Set_modified_is_old lists "list.1.0" (VInt 5)
           (VMap {["list" := VSeq [VInt 1; VSeq [VInt 5; VInt 3]]; "x" := VSeq [VNil]]})
           {["list.1.0" := VInt 2]} ∅ (VInt 2) "list.1.0");
    [discriminate|vm_compute; reflexivity|reflexivity|reflexivity].
Defined.

(** ** What [added] means *)

(** [resizeArray] leaves the value as it is, or [Get] could not follow
    the segment into the value as it was. *)
Lemma get_resized next obj obj' :
  resizeArray next obj = Ok obj' ->
  obj' = obj \/
  forall pre rest, exists e, get_walk pre (next :: rest) obj = Err e.
Proof.
  intros Hres.
  destruct obj as [| | | | |v|arr];
    try (left; unfold resizeArray in Hres; destruct (Atoi next);
         by injection Hres as <-).
  { right. intros pre rest. simpl. eauto. }
  unfold resizeArray in Hres.
  destruct (Atoi next) as [index|] eqn:Hidx; [|left; by injection Hres as <-].
  destruct (Z.leb_spec (Z.of_nat (length arr)) index) as [Hle|];
    [|left; by injection Hres as <-].
  right. intros pre rest. simpl. unfold ParseInt. rewrite Hidx.
  destruct (Z.ltb_spec index (Z.of_nat (length arr))); [lia|]. eauto.
Qed.

Lemma walk_added_new keys : forall pre pre' val cur modified added
    c modified' added' x w,
  walk pre keys val cur modified added = WOk c modified' added' ->
  added !! Join (pre ++ keys) = None ->
  added' !! Join (pre ++ keys) = Some x ->
  get_walk pre' keys cur = Ok w ->
  w = VNil.
Proof.
  induction keys as [|key rest IH];
    intros pre pre' val cur modified added c modified' added' x w
           Hw Hnone Hsome Hg.
  { simpl in Hw. injection Hw as _ _ <-. congruence. }
  destruct cur as [| | | | |v|v];
    try (rewrite walk_skips in Hw by done; injection Hw as _ _ <-; congruence).
  - destruct rest as [|next rest'].
    + simpl in Hw, Hg. destruct (v !! key) as [obj|]; [|done].
      destruct (deep_equal obj val); injection Hw as <- <- <-; congruence.
    + destruct (v !! key) as [obj|] eqn:Hl;
        [|remember (next :: rest') as parts; simpl in Hg; by rewrite Hl in Hg].
      assert (Hg' : get_walk (pre' ++ [key]) (next :: rest') obj = Ok w).
      { remember (next :: rest') as parts. simpl in Hg. by rewrite Hl in Hg. }
      destruct (resizeArray next obj) as [obj'| |] eqn:Hres;
        [|simpl in Hw; by rewrite Hl, Hres in Hw ..].
      rewrite (walk_map_present _ _ _ _ _ _ _ _ _ _ Hl Hres) in Hw.
      apply rebuild_ok in Hw as (c' & Hw & _).
      destruct (get_resized next obj obj' Hres) as [->|Herr].
      * eapply IH; [exact Hw|by rewrite app_cons_assoc ..|exact Hg'].
      * destruct (Herr (pre' ++ [key]) rest') as [e He]. congruence.
  - destruct (Atoi key) as [arrIndex|] eqn:Hidx;
      [|by simpl in Hw; rewrite Hidx in Hw].
    destruct ((-1 <? arrIndex) && (arrIndex <? Z.of_nat (length v))) eqn:Hin;
      [|by simpl in Hw; rewrite Hidx, Hin in Hw].
    assert (Hslot : exists y, v !! Z.to_nat arrIndex = Some y /\
              forall parts, get_walk pre' (key :: parts) (VSeq v)
                            = get_walk (pre' ++ [key]) parts y).
    { apply andb_prop in Hin as [H1 H2]. pose proof H2 as H2'.
      apply Z.ltb_lt in H1, H2.
      destruct (lookup_lt_is_Some_2 v (Z.to_nat arrIndex)) as [y Hy]; [lia|].
      exists y. split; [done|]. intros parts. simpl. unfold ParseInt, slice_index.
      rewrite Hidx, H2'. destruct (Z.leb_spec 0 arrIndex); [|lia]. simpl.
      by rewrite Hy. }
    destruct Hslot as (y & Hy & Hread). rewrite Hread in Hg.
    destruct rest as [|next rest'].
    + simpl in Hw, Hg. rewrite Hidx, Hin, Hy in Hw. simpl in Hw.
      injection Hg as <-.
      destruct y; try done;
        (destruct (deep_equal _ val); injection Hw as <- <- <-; congruence).
    + destruct (resizeArray next (default VNil (v !! Z.to_nat arrIndex)))
        as [child| |] eqn:Hres;
        [|simpl in Hw; by rewrite Hidx, Hin, Hres in Hw ..].
      rewrite (walk_seq_inside _ _ _ _ _ _ _ _ _ _ Hidx Hin Hres) in Hw.
      apply rebuild_ok in Hw as (c' & Hw & _).
      rewrite Hy in Hres. simpl in Hres.
      destruct (get_resized next y child Hres) as [->|Herr].
      * eapply IH; [exact Hw|by rewrite app_cons_assoc ..|exact Hg].
      * destruct (Herr (pre' ++ [key]) rest') as [e He]. congruence.
Qed.

(** X19.  An entry in [added] under the path means the path led to
    nothing before: when a call of [Set] on a path that is not empty
    returns normally with an entry for the trimmed path in [added],
    [Get] on the segments [Set] walked, on the root before the call,
    failed or found nil. *)
Theorem Set_added_was_absent (root : value) (path : string) (val root' : value)
    (modified added : gmap string value) (x w : value) (q : string) :
  trim_path path <> EmptyString ->
  Config_Set root path val = SetOk root' modified added ->
  added !! trim_path path = Some x ->
  normalize_parts q = Ok (Split (trim_path path)) ->
  Get (start_root root) q = Ok w ->
  w = VNil.
Proof.
  intros Hp Hset Hx Hq Hg. rewrite Config_Set_walk in Hset by done.
  destruct (walk _ _ _ _ _ _) as [c m a| |] eqn:Hw; try done.
  injection Hset as -> -> ->. unfold Get in Hg. rewrite Hq in Hg.
  eapply (walk_added_new _ [] []); [exact Hw| | |exact Hg];
    simpl app; rewrite Join_Split; done.
Qed.

Lemma Set_added_was_absent_witness :
  Get (start_root (VSeq [VInt 1; VNil])) "1" = Ok VNil /\ VNil = VNil.
Proof.
  split; [reflexivity|].
  apply (Set_added_was_absent (VSeq [VInt 1; VNil]) "1" (VInt 5)
           (VSeq [VInt 1; VInt 5]) ∅ {["1" := VNil]} VNil VNil "1");
    [discriminate|vm_compute; reflexivity|reflexivity|reflexivity|reflexivity].
Defined.
